(** * NFCHidEmulator: the NDEF scanner, the keystroke replay and the card
      session controller of [src/index.js] and of its earlier robotjs variant
      ([src/unnamed/part_000]), embedded as Rocq functions. *)

From Stdlib Require Import ZArith Lia Bool Ascii String.
From stdpp Require Import base list strings.

Local Open Scope Z_scope.

(** ** Node.js buffers

    A [Buffer] is a sequence of integers in [0, 256).  Indexing outside the
    buffer yields [undefined], here [None]. *)

Definition buffer := list Z.

Definition is_buffer (data : buffer) : Prop :=
  Forall (fun b => 0 <= b < 256) data.

(** [data.length] *)
Definition len {A} (data : list A) : Z := Z.of_nat (length data).

(** [data[i]] *)
Definition byte_at (data : buffer) (i : Z) : option Z :=
  if i <? 0 then None else data !! Z.to_nat i.

(** Index normalisation of [slice]: a negative index counts from the end,
    and the result is clamped to [0, n]. *)
Definition clamp_index (n i : Z) : Z :=
  if i <? 0 then Z.max (n + i) 0 else Z.min i n.

(** [data.slice(start, stop)] *)
Definition slice {A} (data : list A) (start stop : Z) : list A :=
  let s := clamp_index (len data) start in
  let e := clamp_index (len data) stop in
  take (Z.to_nat (e - s)) (drop (Z.to_nat s) data).

(** [data.slice(start)] *)
Definition slice_from {A} (data : list A) (start : Z) : list A :=
  slice data start (len data).

(** ** Counting loops

    [for (let i = 0; i < bound; i++) { ... return ...; }] with a body that
    does not assign [i]: the body runs on 0, 1, ..., bound - 1 in turn and the
    first [return] ends the loop.  [None] means the loop ran to its end. *)

Fixpoint first_return {A} (body : Z -> option A) (idxs : list Z) : option A :=
  match idxs with
  | [] => None
  | i :: rest =>
      match body i with
      | Some r => Some r
      | None => first_return body rest
      end
  end.

Definition for_range {A} (bound : Z) (body : Z -> option A) : option A :=
  first_return body (seqZ 0 bound).

(** ** findNdefData *)

(** Body of the first loop: the NDEF TLV (tag 0x03) test at index [i].  A
    comparison with [undefined] is false, so a missing byte falls through. *)
Definition tlv_body (data : buffer) (i : Z) : option buffer :=
  match byte_at data i with
  | Some b =>
      if b =? 0x03 then
        match byte_at data (i + 1) with
        | Some length =>
            if i + 2 + length <=? len data
            then Some (slice data (i + 2) (i + 2 + length))
            else None
        | None => None
        end
      else None
  | None => None
  end.

(** [(headerByte & 0x80) !== 0] *)
Definition mb (headerByte : Z) : bool := negb (Z.land headerByte 0x80 =? 0).

(** [headerByte & 0x07] *)
Definition tnf_of (headerByte : Z) : Z := Z.land headerByte 0x07.

(** Body of the fallback loop: the record header test at index [i]. *)
Definition header_body (data : buffer) (i : Z) : option buffer :=
  match byte_at data i with
  | Some headerByte =>
      if mb headerByte && (0x01 <=? tnf_of headerByte) && (tnf_of headerByte <=? 0x06)
      then Some (slice_from data i)
      else None
  | None => None
  end.

(** [null] is [None]. *)
Definition findNdefData (data : buffer) : option buffer :=
  match for_range (len data - 2) (tlv_body data) with
  | Some ndefData => Some ndefData
  | None => for_range (len data - 3) (header_body data)
  end.

(** ** Errors and configuration *)

(** A thrown value: an [Error] object, of which the program reads only
    [message]. *)
Record JsError := mkError { message : string }.

#[global] Instance JsError_eq_dec : EqDecision JsError.
Proof. solve_decision. Defined.

Record Config := mkConfig { startDelay : Z; autoEnter : bool }.

Definition config : Config := {| startDelay := 10; autoEnter := true |}.

(** ** typeText of src/index.js (nut-js keyboard) *)

Inductive Key := Escape | Tab | Enter.

#[global] Instance Key_eq_dec : EqDecision Key.
Proof. solve_decision. Defined.

(** Calls on the [keyboard] object of nut-js. *)
Inductive KbCall :=
| PressKey (k : Key)
| ReleaseKey (k : Key)
| TypeChar (c : ascii).

#[global] Instance KbCall_eq_dec : EqDecision KbCall.
Proof. solve_decision. Defined.

(** What the timer callback of [typeText] does, in order. *)
Inductive Effect :=
| Kb (c : KbCall)                 (* a keyboard call whose promise resolved *)
| Yield                           (* await new Promise(r => setImmediate(r)) *)
| LogTypingError (e : JsError)    (* console.error("Error during typing:", error) *)
| Resolve.                        (* resolve() *)

#[global] Instance Effect_eq_dec : EqDecision Effect.
Proof. solve_decision. Defined.

(** The keyboard is an external collaborator: given the calls that have
    succeeded so far and the call being made, the promise it returns either
    resolves ([None]) or rejects with an error. *)
Definition Keyboard := list KbCall -> KbCall -> option JsError.

Definition kb_calls (tr : list Effect) : list KbCall :=
  omap (fun e => match e with Kb c => Some c | _ => None end) tr.

(** Outcome of a piece of asynchronous code: it completes, throws, or the
    model's loop counter is exhausted (shown below never to happen). *)
Inductive Outcome (A : Type) :=
| Return (a : A)
| Throw (e : JsError)
| OutOfFuel.
Arguments Return {A} a.
Arguments Throw {A} e.
Arguments OutOfFuel {A}.

(** Code that appends to the trace of effects. *)
Definition M (A : Type) : Type := list Effect -> Outcome A * list Effect.

Definition ret {A} (a : A) : M A := fun tr => (Return a, tr).

Definition bind {A B} (m : M A) (f : A -> M B) : M B :=
  fun tr =>
    match m tr with
    | (Return a, tr') => f a tr'
    | (Throw e, tr') => (Throw e, tr')
    | (OutOfFuel, tr') => (OutOfFuel, tr')
    end.

#[global] Instance M_ret : MRet M := @ret.
#[global] Instance M_bind : MBind M := fun A B f m => bind m f.

Definition emit (e : Effect) : M unit := fun tr => (Return tt, tr ++ [e]).

(** [try { body } catch (error) { handler }] *)
Definition try_catch {A} (body : M A) (handler : JsError -> M A) : M A :=
  fun tr =>
    match body tr with
    | (Throw e, tr') => handler e tr'
    | r => r
    end.

(** [await keyboard.<call>] *)
Definition await_kb (kb : Keyboard) (c : KbCall) : M unit :=
  fun tr =>
    match kb (kb_calls tr) c with
    | Some e => (Throw e, tr)
    | None => (Return tt, tr ++ [Kb c])
    end.

(** Monadic counting loop over the given indices. *)
Fixpoint for_each (body : Z -> M unit) (idxs : list Z) : M unit :=
  match idxs with
  | [] => ret tt
  | j :: rest => body j ;; for_each body rest
  end.

Definition chunkSize : Z := 50.

(** The body of the inner loop for [char = chunk[j]]. *)
Definition type_char (kb : Keyboard) (char : ascii) : M unit :=
  if Ascii.eqb char "/" then
    await_kb kb (PressKey Tab) ;; await_kb kb (ReleaseKey Tab)
  else
    await_kb kb (TypeChar char).

(** [for (let j = 0; j < chunk.length; j++)]; [chunk[j]] is defined for
    every [j] the loop reaches. *)
Definition type_chunk (kb : Keyboard) (chunk : list ascii) : M unit :=
  for_each
    (fun j => match chunk !! Z.to_nat j with
              | Some char => type_char kb char
              | None => ret tt
              end)
    (seqZ 0 (len chunk)).

(** [for (let i = 0; i < text.length; i += chunkSize)], one unit of fuel per
    iteration. *)
Fixpoint chunk_loop (fuel : nat) (kb : Keyboard) (text : list ascii) (i : Z)
  : M unit :=
  match fuel with
  | O => fun tr => (OutOfFuel, tr)
  | S fuel' =>
      if i <? len text then
        type_chunk kb (slice text i (i + chunkSize)) ;;
        emit Yield ;;
        chunk_loop fuel' kb text (i + chunkSize)
      else ret tt
  end.

(** The [try] block of the timer callback that [typeText] arms. *)
Definition typeText_try (kb : Keyboard) (text : list ascii) (pressEnter : bool)
  : M unit :=
  await_kb kb (PressKey Escape) ;;
  await_kb kb (ReleaseKey Escape) ;;
  chunk_loop (S (length text)) kb text 0 ;;
  (if pressEnter
   then await_kb kb (PressKey Enter) ;; await_kb kb (ReleaseKey Enter)
   else ret tt) ;;
  emit Resolve.

(** The timer callback; the promise that [typeText] returns is settled only
    through [resolve]. *)
Definition typeText_callback (kb : Keyboard) (text : list ascii)
    (pressEnter : bool) : M unit :=
  try_catch
    (typeText_try kb text pressEnter)
    (fun error => emit (LogTypingError error) ;; emit Resolve).

Definition typeText (kb : Keyboard) (text : string) (pressEnter : bool)
  : Outcome unit * list Effect :=
  typeText_callback kb (list_ascii_of_string text) pressEnter [].

(** State of a promise built by [new Promise((resolve) => ...)] whose
    executor cannot throw: fulfilled once [resolve] has run, pending before;
    there is no path to rejection. *)
Inductive PromiseState := Pending | Fulfilled | Rejected.

Definition promise_state (r : Outcome unit * list Effect) : PromiseState :=
  if bool_decide (Resolve ∈ snd r) then Fulfilled else Pending.


(** ** The NDEF library (npm package ndef) and the observable actions *)

Definition uid := string.

(** A decoded record; the library stores [type] as a string. *)
Record NdefRecord := mkRecord {
  tnf : Z;
  type : string;
  id : buffer;
  payload : buffer
}.

(** [ndef.decodeMessage] and [ndef.text.decodePayload]: either may throw. *)
Record NdefLib := mkLib {
  decodeMessage : buffer -> JsError + list NdefRecord;
  decodePayload : buffer -> JsError + string
}.

(** What the card handlers do to the outside world, in order. *)
Inductive Obs :=
| ConsoleLog (line : string)
| ConsoleError (line : string)
| ReaderRead (blockStart length : Z)      (* reader.read(4, 256) *)
| NdefDecodeMessage (ndefData : buffer)   (* ndef.decodeMessage(ndefData) *)
| NdefDecodePayload (bytes : buffer)      (* ndef.text.decodePayload(...) *)
| TypeText (text : string) (pressEnter : bool)  (* typeText(text, config.autoEnter) *)
| SetTimeout (ms : Z).

#[global] Instance Obs_eq_dec : EqDecision Obs.
Proof. solve_decision. Defined.

Definition is_read (o : Obs) : bool :=
  match o with ReaderRead _ _ => true | _ => false end.

Definition is_replay (o : Obs) : bool :=
  match o with TypeText _ _ => true | _ => false end.

(** Number of replays ([typeText] calls) in a trace. *)
Definition replays (tr : list Obs) : nat :=
  length (filter (fun o => is_replay o = true) tr).

(** Number of pipelines (reads) started in a trace. *)
Definition reads (tr : list Obs) : nat := length (filter (fun o => is_read o = true) tr).

Definition dquote : string := String (ascii_of_nat 34) EmptyString.

(** [records.filter((record) => record.type === "T")] *)
Definition textRecords (records : list NdefRecord) : list NdefRecord :=
  filter (fun record => type record = "T") records.

(** What the events of the reader and of the JavaScript event loop are: a
    card is detected or removed, or a suspended piece of a handler (the
    [k]-th of those pending) is resumed with the result it awaited. *)
Inductive Event :=
| Card (u : uid)
| CardOff (u : uid)
| ReadSettled (k : nat) (r : JsError + buffer)
| TypeTextSettled (k : nat) (r : JsError + unit)
| TimerFired (k : nat).

(** ** The card session controller of src/index.js *)

(** Where a handler is suspended. *)
Inductive Continuation :=
| AwaitRead        (* await reader.read(4, 256) *)
| AwaitTypeText    (* await typeText(text, config.autoEnter) *)
| ResetTimer.      (* setTimeout(() => { processingCard = false; ... }, 1000) *)

#[global] Instance Continuation_eq_dec : EqDecision Continuation.
Proof. solve_decision. Defined.

Record Session := mkSession {
  lastProcessedCard : option uid;   (* null or the uid *)
  processingCard : bool;
  pending : list Continuation;
  trace : list Obs
}.

Definition init : Session := mkSession None false [] [].

Definition log (o : Obs) (s : Session) : Session :=
  mkSession (lastProcessedCard s) (processingCard s) (pending s) (trace s ++ [o]).

Definition set_processingCard (b : bool) (s : Session) : Session :=
  mkSession (lastProcessedCard s) b (pending s) (trace s).

Definition set_lastProcessedCard (c : option uid) (s : Session) : Session :=
  mkSession c (processingCard s) (pending s) (trace s).

Definition set_pending (p : list Continuation) (s : Session) : Session :=
  mkSession (lastProcessedCard s) (processingCard s) p (trace s).

Definition suspend (c : Continuation) (s : Session) : Session :=
  set_pending (pending s ++ [c]) s.

(** The guard of the card handler, negated: the event starts a pipeline. *)
Definition accepts (s : Session) (cardId : uid) : bool :=
  negb (processingCard s || bool_decide (lastProcessedCard s = Some cardId)).

(** [reader.on("card", ...)] up to its first [await]. *)
Definition on_card (cardId : uid) (s : Session) : Session :=
  let s := log (ConsoleLog ("Card detected: " +:+ cardId)) s in
  if processingCard s || bool_decide (lastProcessedCard s = Some cardId) then
    log (ConsoleLog "Ignoring duplicate card or concurrent processing") s
  else
    let s := set_processingCard true s in
    let s := set_lastProcessedCard (Some cardId) s in
    let s := log (ConsoleLog "Reading tag...") s in
    let s := log (ReaderRead 4 256) s in
    suspend AwaitRead s.

(** [catch (err) { console.error(...); processingCard = false; }] *)
Definition catch_block (err : JsError) (s : Session) : Session :=
  set_processingCard false (log (ConsoleError ("Error: " +:+ message err)) s).

(** The handler from the result of the read to its next [await] or [return]. *)
Definition after_read (lib : NdefLib) (data : buffer) (s : Session) : Session :=
  match findNdefData data with
  | None =>
      set_processingCard false (log (ConsoleLog "No valid NDEF data found.") s)
  | Some ndefData =>
      let s := log (NdefDecodeMessage ndefData) s in
      match decodeMessage lib ndefData with
      | inl err => catch_block err s
      | inr records =>
          match textRecords records with
          | [] =>
              set_processingCard false (log (ConsoleLog "No text records found.") s)
          | first :: _ =>
              let s := log (NdefDecodePayload (payload first)) s in
              match decodePayload lib (payload first) with
              | inl err => catch_block err s
              | inr text =>
                  let s := log (ConsoleLog ("Text found: " +:+ dquote +:+ text +:+ dquote)) s in
                  let s := log (ConsoleLog "Typing text...") s in
                  let s := log (TypeText text (autoEnter config)) s in
                  suspend AwaitTypeText s
              end
          end
      end
  end.

(** The handler after [await typeText(...)]: it arms the reset timer. *)
Definition after_typeText (s : Session) : Session :=
  suspend ResetTimer (log (SetTimeout 1000) s).

(** The callback of the reset timer. *)
Definition timer_callback (s : Session) : Session :=
  log (ConsoleLog "Ready for next card") (set_processingCard false s).

(** [reader.on("card.off", ...)] *)
Definition on_card_off (u : uid) (s : Session) : Session :=
  let s := log (ConsoleLog ("Card removed: " +:+ u)) s in
  if bool_decide (lastProcessedCard s = Some u)
  then set_lastProcessedCard None s
  else s.

(** Resume the [k]-th pending continuation, if it is [c]. *)
Definition resume (c : Continuation) (k : nat) (s : Session) : option Session :=
  match pending s !! k with
  | Some c' => if bool_decide (c' = c)
               then Some (set_pending (delete k (pending s)) s)
               else None
  | None => None
  end.

(** One event.  [None]: the event cannot happen in this state (nothing of
    that kind is pending). *)
Definition step (lib : NdefLib) (s : Session) (e : Event) : option Session :=
  match e with
  | Card u => Some (on_card u s)
  | CardOff u => Some (on_card_off u s)
  | ReadSettled k r =>
      s' ← resume AwaitRead k s;
      Some (match r with
            | inl err => catch_block err s'
            | inr data => after_read lib data s'
            end)
  | TypeTextSettled k r =>
      s' ← resume AwaitTypeText k s;
      Some (match r with
            | inl err => catch_block err s'
            | inr _ => after_typeText s'
            end)
  | TimerFired k =>
      s' ← resume ResetTimer k s;
      Some (timer_callback s')
  end.

Fixpoint run (lib : NdefLib) (s : Session) (evs : list Event) : option Session :=
  match evs with
  | [] => Some s
  | e :: rest => s' ← step lib s e; run lib s' rest
  end.

(** Number of pipelines started along a run by card-detected events whose
    identifier is selected by [sel]. *)
Fixpoint pipelines (lib : NdefLib) (sel : uid -> bool) (s : Session)
    (evs : list Event) : nat :=
  match evs with
  | [] => 0
  | e :: rest =>
      ((match e with
        | Card v => if sel v && accepts s v then 1 else 0
        | _ => 0
        end)
       + match step lib s e with
         | Some s' => pipelines lib sel s' rest
         | None => 0
         end)%nat
  end.

(** Pipelines started for the card [u], and for all other cards. *)
Definition pipelines_for (lib : NdefLib) (u : uid) : Session -> list Event -> nat :=
  pipelines lib (fun v => bool_decide (v = u)).

Definition pipelines_others (lib : NdefLib) (u : uid) : Session -> list Event -> nat :=
  pipelines lib (fun v => bool_decide (v ≠ u)).

(** The run holds no card-removed event for [u]. *)
Definition no_removal (u : uid) (evs : list Event) : Prop :=
  Forall (fun e => e ≠ CardOff u) evs.

(** The run holds no card-detected event at all. *)
Definition no_detection (evs : list Event) : Prop :=
  Forall (fun e => match e with Card _ => False | _ => True end) evs.

(** The event that resumes the oldest pending continuation, with the given
    results for the read and for [typeText]. *)
Definition next_event (rd : JsError + buffer) (ty : JsError + unit) (s : Session)
  : option Event :=
  match pending s with
  | [] => None
  | AwaitRead :: _ => Some (ReadSettled 0 rd)
  | AwaitTypeText :: _ => Some (TypeTextSettled 0 ty)
  | ResetTimer :: _ => Some (TimerFired 0)
  end.

(** Let the pending continuations run, at most [n] resumptions. *)
Fixpoint drain (lib : NdefLib) (n : nat) (rd : JsError + buffer)
    (ty : JsError + unit) (s : Session) : option Session :=
  match n with
  | O => Some s
  | S n' =>
      match next_event rd ty s with
      | None => Some s
      | Some e => s' ← step lib s e; drain lib n' rd ty s'
      end
  end.

(** ** The robotjs variant (src/unnamed/part_000) *)

Module Part000.

(** Calls on [robot]. *)
Inductive RobotCall :=
| KeyTap (k : Key)          (* robot.keyTap("tab"), robot.keyTap("enter") *)
| TypeString (c : ascii).   (* robot.typeString(char) *)

Inductive Effect :=
| Robot (c : RobotCall)
| SetImmediate.             (* setImmediate(type); return; *)

(** The closure [type] and its re-runs through [setImmediate], on the
    shared counter [i]: a re-run starts, like the next turn of the
    [while], with the test [i < text.length].  One unit of fuel per
    character; [None] is fuel exhausted. *)
Fixpoint type_closure (fuel : nat) (text : list ascii) (pressEnter : bool)
    (i : Z) : option (list Effect) :=
  match fuel with
  | O => None
  | S fuel' =>
      if i <? len text then
        match text !! Z.to_nat i with
        | Some char =>
            let i := i + 1 in
            let call :=
              if Ascii.eqb char "/" then KeyTap Tab else TypeString char in
            if i mod 10 =? 0 then
              (fun rest => Robot call :: SetImmediate :: rest)
                <$> type_closure fuel' text pressEnter i
            else
              (fun rest => Robot call :: rest)
                <$> type_closure fuel' text pressEnter i
        | None => None
        end
      else Some (if pressEnter then [Robot (KeyTap Enter)] else [])
  end.

(** What the timer callback armed by [typeText] does. *)
Definition typeText (text : string) (pressEnter : bool) : option (list Effect) :=
  let chars := list_ascii_of_string text in
  type_closure (S (length chars)) chars pressEnter 0.

Definition robot_calls (tr : list Effect) : list RobotCall :=
  omap (fun e => match e with Robot c => Some c | _ => None end) tr.

(** The handler keeps no variables between events: the only state is the
    set of suspended reads. *)
Record Session := mkSession {
  pending : list unit;      (* handlers at [await reader.read(4, 256)] *)
  trace : list Obs
}.

Definition init : Session := mkSession [] [].

Definition log (o : Obs) (s : Session) : Session :=
  mkSession (pending s) (trace s ++ [o]).

(** [reader.on("card", ...)] up to its [await]. *)
Definition on_card (u : uid) (s : Session) : Session :=
  let s := log (ConsoleLog ("Card detected: " +:+ u)) s in
  let s := log (ConsoleLog "Reading tag...") s in
  let s := log (ReaderRead 4 256) s in
  mkSession (pending s ++ [tt]) (trace s).

Definition catch_block (err : JsError) (s : Session) : Session :=
  log (ConsoleError ("Error: " +:+ message err)) s.

(** The handler from the result of the read to its end; [typeText] is
    called without [await]. *)
Definition after_read (lib : NdefLib) (data : buffer) (s : Session) : Session :=
  match findNdefData data with
  | None => log (ConsoleLog "No valid NDEF data found.") s
  | Some ndefData =>
      let s := log (NdefDecodeMessage ndefData) s in
      match decodeMessage lib ndefData with
      | inl err => catch_block err s
      | inr records =>
          match textRecords records with
          | [] => log (ConsoleLog "No text records found.") s
          | first :: _ =>
              let s := log (NdefDecodePayload (payload first)) s in
              match decodePayload lib (payload first) with
              | inl err => catch_block err s
              | inr text =>
                  let s := log (ConsoleLog ("Text found: " +:+ dquote +:+ text +:+ dquote)) s in
                  let s := log (ConsoleLog "Typing text...") s in
                  log (TypeText text (autoEnter config)) s
              end
          end
      end
  end.

(** One event; this variant registers no listener for card removal and
    has neither an awaited [typeText] nor a reset timer. *)
Definition step (lib : NdefLib) (s : Session) (e : Event) : option Session :=
  match e with
  | Card u => Some (on_card u s)
  | CardOff _ => Some s
  | ReadSettled k r =>
      match pending s !! k with
      | Some _ =>
          let s' := mkSession (delete k (pending s)) (trace s) in
          Some (match r with
                | inl err => catch_block err s'
                | inr data => after_read lib data s'
                end)
      | None => None
      end
  | TypeTextSettled _ _ => None
  | TimerFired _ => None
  end.

Fixpoint run (lib : NdefLib) (s : Session) (evs : list Event) : option Session :=
  match evs with
  | [] => Some s
  | e :: rest => s' ← step lib s e; run lib s' rest
  end.

End Part000.

(** ** Keystrokes

    A keystroke is a key going down and up again, or a typed character. *)

Inductive Keystroke :=
| Stroke (k : Key)
| Typed (c : ascii).

(** The keystroke that replays one character of the text. *)
Definition stroke_of_char (c : ascii) : Keystroke :=
  if Ascii.eqb c "/" then Stroke Tab else Typed c.

(** The keystrokes a text asks for, with the closing Enter. *)
Definition replay_of (text : string) (pressEnter : bool) : list Keystroke :=
  map stroke_of_char (list_ascii_of_string text)
  ++ (if pressEnter then [Stroke Enter] else []).

(** nut-js: a press followed by the release of the same key is one
    keystroke; any other pairing is not a sequence of keystrokes. *)
Fixpoint strokes_of_calls (cs : list KbCall) : option (list Keystroke) :=
  match cs with
  | [] => Some []
  | TypeChar c :: rest => cons (Typed c) <$> strokes_of_calls rest
  | PressKey k :: ReleaseKey k' :: rest =>
      if bool_decide (k = k')
      then cons (Stroke k) <$> strokes_of_calls rest
      else None
  | _ => None
  end.

(** robotjs: [keyTap] is a whole keystroke. *)
Definition stroke_of_robot (c : Part000.RobotCall) : Keystroke :=
  match c with
  | Part000.KeyTap k => Stroke k
  | Part000.TypeString c => Typed c
  end.

(** The keystrokes of a replay by src/index.js. *)
Definition keystrokes (r : Outcome unit * list Effect) : option (list Keystroke) :=
  strokes_of_calls (kb_calls (snd r)).

(** The keystrokes of a replay by the robotjs variant. *)
Definition keystrokes000 (r : option (list Part000.Effect)) : option (list Keystroke) :=
  map stroke_of_robot <$> (Part000.robot_calls <$> r).

(** A keyboard whose calls all succeed. *)
Definition quiet_keyboard : Keyboard := fun _ _ => None.

(** A keyboard that rejects its fourth call. *)
Definition jammed_keyboard : Keyboard :=
  fun done_ _ =>
    if bool_decide (length done_ = 3%nat) then Some (mkError "jammed") else None.

(** The states the controller can be in: one continuation pending exactly
    while [processingCard] is set. *)
Definition gate_inv (s : Session) : Prop :=
  match pending s with
  | [] => processingCard s = false
  | [_] => processingCard s = true
  | _ => False
  end.

(** How many resumptions the oldest pending continuation is from the end of
    its pipeline, at most. *)
Definition weight (s : Session) : nat :=
  match pending s with
  | [] => 0
  | AwaitRead :: _ => 3
  | AwaitTypeText :: _ => 2
  | ResetTimer :: _ => 1
  end.

(** The selection the specification describes: well-known records (TNF 1)
    of type T. *)
Definition well_known_text (records : list NdefRecord) : list NdefRecord :=
  filter (fun record => tnf record = 1 ∧ type record = "T") records.

(** A stand-in for the NDEF library that answers every call with the given
    records and text; used in the concrete scenarios. *)
Definition lib_const (records : list NdefRecord) (text : string) : NdefLib :=
  mkLib (fun _ => inr records) (fun _ => inr text).

(** A tag that carries the text hi, for the concrete scenarios: its dump,
    and the library's answers for it. *)
Definition hi_dump : buffer := [0x03; 0x01; 0xD1; 0xFE].

Definition hi_lib : NdefLib :=
  lib_const [mkRecord 1 "T" [] [0x02; 0x65; 0x6E; 0x68; 0x69]] "hi".

(** A complete presentation of a card with the text hi: detection, read,
    replay and the reset timer. *)
Definition presentation (u : uid) : list Event :=
  [Card u; ReadSettled 0 (inr hi_dump); TypeTextSettled 0 (inr tt); TimerFired 0].

(** ** The byte patterns the scanner looks for, as the specification words them *)

(** A tag byte 0x03 at position [p] whose length byte [L] fits:
    [p + 2 + L <= length(buffer)]. *)
Definition valid_tlv (data : buffer) (p : nat) (L : Z) : Prop :=
  data !! p = Some 0x03
  ∧ data !! (p + 1)%nat = Some L
  ∧ Z.of_nat p + 2 + L <= len data.

(** Message-Begin (the top bit of the byte) set and Type-Name-Format (the
    low three bits) in [1, 6]. *)
Definition is_header (b : Z) : Prop :=
  Z.testbit b 7 = true ∧ 1 <= b mod 8 <= 6.

(** The keyboard calls that replay one character of the text. *)
Definition calls_of_char (c : ascii) : list KbCall :=
  if Ascii.eqb c "/" then [PressKey Tab; ReleaseKey Tab] else [TypeChar c].

(** Code that cannot exhaust the model's loop counter. *)
Definition fuel_safe {A} (m : M A) : Prop := ∀ tr, fst (m tr) ≠ OutOfFuel.

(** ** Descriptions used by the further properties *)

(** The keyboard calls a replay by src/index.js sets out to make, in order. *)
Definition planned_calls (text : list ascii) (pressEnter : bool) : list KbCall :=
  [PressKey Escape; ReleaseKey Escape]
  ++ flat_map calls_of_char text
  ++ (if pressEnter then [PressKey Enter; ReleaseKey Enter] else []).

(** Making the calls [cs] one after the other, after the calls [done_], until
    the keyboard rejects one: the calls that succeeded, and the error. *)
Fixpoint await_all (kb : Keyboard) (cs done_ : list KbCall)
  : list KbCall * option JsError :=
  match cs with
  | [] => (done_, None)
  | c :: rest =>
      match kb done_ c with
      | Some e => (done_, Some e)
      | None => await_all kb rest (done_ ++ [c])
      end
  end.

(** Effects that neither log nor settle the promise. *)
Definition silent (e : Effect) : Prop :=
  match e with Kb _ | Yield => True | _ => False end.

(** The code [m] makes the calls [cs] in order, stops at the first one that
    is rejected and throws its error, and does nothing else but yield. *)
Definition follows (kb : Keyboard) (m : M unit) (cs : list KbCall) : Prop :=
  ∀ tr, ∃ body,
    Forall silent body
    ∧ kb_calls (tr ++ body) = fst (await_all kb cs (kb_calls tr))
    ∧ m tr = (match snd (await_all kb cs (kb_calls tr)) with
              | None => Return tt
              | Some e => Throw e
              end, tr ++ body).

(** The [try] block of [typeText] up to, and without, its [resolve()]. *)
Definition typeText_keys (kb : Keyboard) (text : list ascii) (pressEnter : bool)
  : M unit :=
  await_kb kb (PressKey Escape) ;;
  await_kb kb (ReleaseKey Escape) ;;
  chunk_loop (S (length text)) kb text 0 ;;
  (if pressEnter
   then await_kb kb (PressKey Enter) ;; await_kb kb (ReleaseKey Enter)
   else ret tt).

(** Number of times the replay of src/index.js yields to the event loop. *)
Definition yields (tr : list Effect) : nat :=
  length (filter (fun e => e = Yield) tr).

(** Number of times the robotjs replay hands over to the event loop. *)
Definition is_set_immediate (e : Part000.Effect) : bool :=
  match e with Part000.SetImmediate => true | _ => false end.

Definition set_immediates (tr : list Part000.Effect) : nat :=
  length (filter (fun e => is_set_immediate e = true) tr).

(** Number of handlers suspended at the read. *)
Definition awaiting_reads (p : list Continuation) : nat :=
  length (filter (fun c => c = AwaitRead) p).

Definition is_card (e : Event) : bool :=
  match e with Card _ => true | _ => false end.

(** Number of card-detected events in a run. *)
Definition cards (evs : list Event) : nat :=
  length (filter (fun e => is_card e = true) evs).

(** No record of the list has type T. *)
Definition no_text (records : list NdefRecord) : Prop :=
  Forall (fun r => type r ≠ "T") records.

(** The library decodes the buffer to [text]: the scanner finds a message,
    the message decodes to records, and the payload of the first record of
    type T decodes to [text]. *)
Definition decodes_to (lib : NdefLib) (data : buffer) (text : string) : Prop :=
  ∃ ndefData pre first post,
    findNdefData data = Some ndefData
    ∧ decodeMessage lib ndefData = inr (pre ++ first :: post)
    ∧ no_text pre
    ∧ type first = "T"
    ∧ decodePayload lib (payload first) = inr text.

(** The [typeText] calls of a trace, in order. *)
Definition replay_calls (tr : list Obs) : list Obs :=
  filter (fun o => is_replay o = true) tr.

(** Pipelines started along a run, for whatever card. *)
Definition pipelines_all (lib : NdefLib) : Session -> list Event -> nat :=
  pipelines lib (fun _ => true).

(** A tag memory that holds one short text record with the text hi: the
    message, its record, the dump with the TLV around the message, and a
    library stand-in that decodes this message and this payload only. *)
Definition hi_message : buffer :=
  [0xD1; 0x01; 0x05; 0x54; 0x02; 0x65; 0x6E; 0x68; 0x69].

Definition hi_record : NdefRecord :=
  mkRecord 1 "T" [] [0x02; 0x65; 0x6E; 0x68; 0x69].

Definition hi_tag : buffer := [0x03; 0x09] ++ hi_message ++ [0xFE].

Definition hi_tag_lib : NdefLib :=
  mkLib
    (fun bytes => if bool_decide (bytes = hi_message)
                  then inr [hi_record]
                  else inl (mkError "unexpected message"))
    (fun bytes => if bool_decide (bytes = payload hi_record)
                  then inr "hi"
                  else inl (mkError "unexpected payload")).

(** * Properties *)

(** ** The model on sample inputs *)

(** A tag dump whose first 0x03 carries a length that overruns the buffer:
    the scan goes on to the TLV at index 5. *)
Example findNdefData_tag_dump :
  findNdefData
    [0x01; 0x03; 0xA0; 0x0C; 0x34; 0x03; 0x0C; 0xD1; 0x01; 0x08; 0x54;
     0x02; 0x65; 0x6E; 0x68; 0x65; 0x6C; 0x6C; 0x6F; 0xFE; 0x00]
  = Some [0xD1; 0x01; 0x08; 0x54; 0x02; 0x65; 0x6E; 0x68; 0x65; 0x6C; 0x6C; 0x6F].
Proof. reflexivity. Qed.

Example typeText_sample :
  typeText quiet_keyboard "a/b" true
  = (Return tt,
     [Kb (PressKey Escape); Kb (ReleaseKey Escape);
      Kb (TypeChar "a"); Kb (PressKey Tab); Kb (ReleaseKey Tab);
      Kb (TypeChar "b"); Yield;
      Kb (PressKey Enter); Kb (ReleaseKey Enter); Resolve]).
Proof. reflexivity. Qed.

(** The robotjs variant hands over to the event loop after every tenth
    character. *)
Example typeText000_sample :
  Part000.typeText "0123456789/" false
  = Some (map (fun c => Part000.Robot (Part000.TypeString c))
            (list_ascii_of_string "0123456789")
          ++ [Part000.SetImmediate; Part000.Robot (Part000.KeyTap Tab)]).
Proof. reflexivity. Qed.

(** One presentation of a card from detection to the reset of the flag. *)
Example run_sample :
  let lib := lib_const [mkRecord 1 "T" [] [0x02; 0x65; 0x6E; 0x68; 0x69]] "hi" in
  run lib init
    [Card "04A1"; ReadSettled 0 (inr [0x03; 0x01; 0xD1; 0xFE]);
     TypeTextSettled 0 (inr tt); TimerFired 0]
  = Some (mkSession (Some "04A1") false []
            [ConsoleLog "Card detected: 04A1"; ConsoleLog "Reading tag...";
             ReaderRead 4 256; NdefDecodeMessage [0xD1];
             NdefDecodePayload [0x02; 0x65; 0x6E; 0x68; 0x69];
             ConsoleLog ("Text found: " +:+ dquote +:+ "hi" +:+ dquote);
             ConsoleLog "Typing text..."; TypeText "hi" true;
             SetTimeout 1000; ConsoleLog "Ready for next card"]).
Proof. reflexivity. Qed.

(** ** Buffers and loops *)

Lemma byte_at_nat (data : buffer) (p : nat) :
  byte_at data (Z.of_nat p) = data !! p.
Proof.
  unfold byte_at.
  destruct (Z.ltb_spec (Z.of_nat p) 0) as [Hneg | _]; [lia |].
  by rewrite Nat2Z.id.
Qed.

Lemma byte_at_Some (data : buffer) (i b : Z) :
  byte_at data i = Some b → 0 <= i ∧ data !! Z.to_nat i = Some b.
Proof.
  unfold byte_at. destruct (Z.ltb_spec i 0); [done |]. auto.
Qed.

Lemma slice_nat {A} (data : list A) (a b : nat) :
  (a ≤ b ≤ length data)%nat →
  slice data (Z.of_nat a) (Z.of_nat b) = take (b - a) (drop a data).
Proof.
  intros Hab. unfold slice, clamp_index, len.
  destruct (Z.ltb_spec (Z.of_nat a) 0); [lia |].
  destruct (Z.ltb_spec (Z.of_nat b) 0); [lia |].
  rewrite !Z.min_l by lia.
  rewrite Nat2Z.id. f_equal. lia.
Qed.

Lemma slice_from_nat {A} (data : list A) (a : nat) :
  (a ≤ length data)%nat → slice_from data (Z.of_nat a) = drop a data.
Proof.
  intros Ha. unfold slice_from, len. rewrite slice_nat by lia.
  apply take_ge. rewrite length_drop. lia.
Qed.

Lemma first_return_skip {A} (body : Z → option A) (l1 l2 : list Z) :
  Forall (fun i => body i = None) l1 →
  first_return body (l1 ++ l2) = first_return body l2.
Proof.
  induction 1 as [| i l1 Hi _ IH]; simpl; [done |]. by rewrite Hi.
Qed.

Lemma first_return_None {A} (body : Z → option A) (l : list Z) :
  Forall (fun i => body i = None) l → first_return body l = None.
Proof.
  intros Hl. rewrite <- (app_nil_r l). by rewrite first_return_skip.
Qed.

(** The loop returns what its body returns at the leftmost index where the
    body returns at all. *)
Lemma for_range_leftmost {A} (bound p : Z) (body : Z → option A) (r : A) :
  0 <= p < bound →
  body p = Some r →
  (∀ q, 0 <= q < p → body q = None) →
  for_range bound body = Some r.
Proof.
  intros Hp Hbody Hbefore. unfold for_range.
  replace bound with (p + (bound - p)) by lia.
  rewrite seqZ_app by lia.
  rewrite first_return_skip.
  - rewrite seqZ_cons by lia. simpl. by rewrite Z.add_0_l, Hbody.
  - apply Forall_forall. intros q Hq. apply elem_of_seqZ in Hq.
    apply Hbefore. lia.
Qed.

Lemma for_range_None {A} (bound : Z) (body : Z → option A) :
  (∀ q, 0 <= q < bound → body q = None) →
  for_range bound body = None.
Proof.
  intros Hnone. apply first_return_None, Forall_forall.
  intros q Hq. apply elem_of_seqZ in Hq. apply Hnone. lia.
Qed.

Lemma for_range_empty {A} (bound : Z) (body : Z → option A) :
  bound <= 0 → for_range bound body = None.
Proof. intros Hb. apply for_range_None. lia. Qed.

(** ** The two loop bodies against the specification's patterns *)

Lemma tlv_body_valid (data : buffer) (p : nat) (L : Z) :
  is_buffer data →
  valid_tlv data p L →
  tlv_body data (Z.of_nat p) = Some (take (Z.to_nat L) (drop (p + 2) data)).
Proof.
  intros Hbuf (Htag & Hlen & Hfit).
  assert (0 <= L < 256) as HL.
  { eapply Forall_lookup_1 in Hbuf; [| exact Hlen]. exact Hbuf. }
  assert (byte_at data (Z.of_nat p + 1) = Some L) as Hlen'.
  { replace (Z.of_nat p + 1) with (Z.of_nat (p + 1)) by lia.
    by rewrite byte_at_nat. }
  unfold tlv_body. rewrite byte_at_nat, Htag, Hlen'. simpl.
  destruct (Z.leb_spec (Z.of_nat p + 2 + L) (len data)) as [_ | Hno]; [| lia].
  replace (Z.of_nat p + 2 + L) with (Z.of_nat (p + 2 + Z.to_nat L)) by lia.
  replace (Z.of_nat p + 2) with (Z.of_nat (p + 2)) by lia.
  rewrite slice_nat by (unfold len in Hfit; lia).
  do 2 f_equal. lia.
Qed.

Lemma tlv_body_invalid (data : buffer) (q : Z) :
  (∀ L, ¬ valid_tlv data (Z.to_nat q) L) → tlv_body data q = None.
Proof.
  intros Hinv. unfold tlv_body.
  destruct (byte_at data q) as [b |] eqn:Hb; [| done].
  apply byte_at_Some in Hb as [Hq Hb].
  destruct (Z.eqb_spec b 3) as [-> | _]; [| done].
  destruct (byte_at data (q + 1)) as [L |] eqn:HL; [| done].
  apply byte_at_Some in HL as [_ HL].
  destruct (Z.leb_spec (q + 2 + L) (len data)) as [Hfit | _]; [| done].
  exfalso. apply (Hinv L). repeat split; [done | | lia].
  by replace (Z.to_nat q + 1)%nat with (Z.to_nat (q + 1)) by lia.
Qed.

(** A tag byte whose length byte overruns the buffer makes the body fall
    through, so the loop goes on to the next index. *)
Lemma tlv_body_overrun (data : buffer) (p : nat) (L : Z) :
  data !! p = Some 0x03 →
  data !! (p + 1)%nat = Some L →
  len data < Z.of_nat p + 2 + L →
  tlv_body data (Z.of_nat p) = None.
Proof.
  intros Htag Hlen Hover. apply tlv_body_invalid. rewrite Nat2Z.id.
  intros L' (_ & Hlen' & Hfit). rewrite Hlen in Hlen'.
  injection Hlen' as <-. lia.
Qed.

Lemma mb_testbit (b : Z) : mb b = Z.testbit b 7.
Proof.
  unfold mb. destruct (Z.testbit b 7) eqn:Hbit.
  - destruct (Z.eqb_spec (Z.land b 128) 0) as [Hz | _]; [| done].
    assert (Z.testbit (Z.land b 128) 7 = true) as Hland.
    { rewrite Z.land_spec, Hbit. reflexivity. }
    rewrite Hz in Hland. discriminate.
  - destruct (Z.eqb_spec (Z.land b 128) 0) as [_ | Hnz]; [done |].
    exfalso. apply Hnz. apply Z.bits_inj'. intros n Hn.
    rewrite Z.land_spec, Z.bits_0.
    change 128 with (2 ^ 7). rewrite Z.pow2_bits_eqb by lia.
    destruct (Z.eqb_spec 7 n) as [<- | _].
    + by rewrite Hbit.
    + apply andb_false_r.
Qed.

Lemma tnf_of_mod (b : Z) : tnf_of b = b mod 8.
Proof. unfold tnf_of. change 7 with (Z.ones 3). by rewrite Z.land_ones. Qed.

Lemma header_test_spec (b : Z) :
  mb b && (1 <=? tnf_of b) && (tnf_of b <=? 6) = true ↔ is_header b.
Proof.
  unfold is_header. rewrite mb_testbit, tnf_of_mod.
  rewrite !andb_true_iff, !Z.leb_le. tauto.
Qed.

Lemma header_body_header (data : buffer) (p : nat) (b : Z) :
  data !! p = Some b → is_header b →
  header_body data (Z.of_nat p) = Some (drop p data).
Proof.
  intros Hb Hh. unfold header_body. rewrite byte_at_nat, Hb.
  apply header_test_spec in Hh. rewrite Hh.
  rewrite slice_from_nat; [done |].
  apply lookup_lt_Some in Hb. lia.
Qed.

Lemma header_body_other (data : buffer) (q : Z) :
  (∀ b, data !! Z.to_nat q = Some b → ¬ is_header b) →
  header_body data q = None.
Proof.
  intros Hno. unfold header_body.
  destruct (byte_at data q) as [b |] eqn:Hb; [| done].
  apply byte_at_Some in Hb as [_ Hb].
  destruct (mb b && (1 <=? tnf_of b) && (tnf_of b <=? 6)) eqn:Htest; [| done].
  apply header_test_spec in Htest. by destruct (Hno b Hb).
Qed.

(** ** The scanner *)

Lemma tlv_scan_none (data : buffer) :
  (∀ q L, ¬ valid_tlv data q L) →
  for_range (len data - 2) (tlv_body data) = None.
Proof.
  intros Hno. apply for_range_None. intros q _.
  apply tlv_body_invalid. intros L. apply Hno.
Qed.

(** C1 (amended): when the buffer holds a valid NDEF TLV at a position the
    first loop visits, that is a byte 0x03 at position [p] with
    [p + 2 < length] whose length byte [L] satisfies [p + 2 + L <= length],
    [findNdefData] returns exactly the [L] bytes at positions
    [p + 2, p + 2 + L) of the leftmost such [p].  Occurrences of 0x03 to the
    left of [p] whose length byte overruns the buffer do not stop the scan. *)
Theorem findNdefData_leftmost_tlv (data : buffer) (p : nat) (L : Z) :
  is_buffer data →
  valid_tlv data p L →
  (p + 2 < length data)%nat →
  (∀ q L', (q < p)%nat → ¬ valid_tlv data q L') →
  findNdefData data = Some (take (Z.to_nat L) (drop (p + 2) data))
  ∧ len (take (Z.to_nat L) (drop (p + 2) data)) = L.
Proof.
  intros Hbuf Hvalid Hscan Hleft. split.
  - unfold findNdefData.
    rewrite (for_range_leftmost _ (Z.of_nat p) _
               (take (Z.to_nat L) (drop (p + 2) data))); [done | | |].
    + unfold len. lia.
    + by apply tlv_body_valid.
    + intros q Hq. apply tlv_body_invalid. intros L'. apply Hleft. lia.
  - destruct Hvalid as (_ & Hlen & Hfit).
    assert (0 <= L < 256) as HL.
    { eapply Forall_lookup_1 in Hbuf; [| exact Hlen]. exact Hbuf. }
    unfold len in *. rewrite length_take, length_drop. lia.
Qed.

Lemma findNdefData_leftmost_tlv_witness :
  let data := [0x03; 0x05; 0x03; 0x01; 0xAA; 0x00] in
  findNdefData data = Some [0xAA] ∧ len [0xAA] = 1.
Proof.
  intros data. apply (findNdefData_leftmost_tlv data 2 1); subst data.
  - repeat constructor; lia.
  - repeat split. unfold len. simpl. lia.
  - simpl. lia.
  - intros q L' Hq (Htag & Hlen & Hfit).
    destruct q as [| [| q]]; [| discriminate | lia].
    injection Hlen as <-. unfold len in Hfit. simpl in Hfit. lia.
Defined.

(** C1 as stated fails when the only valid TLV sits in the last two bytes:
    the first loop stops at [length - 2]. *)
Lemma findNdefData_tlv_at_end_missed :
  let data := [0x00; 0x03; 0x00] in
  is_buffer data
  ∧ valid_tlv data 1 0
  ∧ (∀ q L', (q < 1)%nat → ¬ valid_tlv data q L')
  ∧ findNdefData data = None
  ∧ findNdefData data ≠ Some (take (Z.to_nat 0) (drop (1 + 2) data)).
Proof.
  intros data. subst data. split; [repeat constructor; lia |].
  split; [repeat split; unfold len; simpl; lia |].
  split; [| split; [reflexivity | discriminate]].
  intros q L' Hq (Htag & _). destruct q; [discriminate | lia].
Qed.

(** C6 (amended): when the buffer holds no valid 0x03 TLV and holds a byte
    with Message-Begin set and Type-Name-Format in [1, 6] at a position the
    fallback loop visits, that is at some [p] with [p + 3 < length],
    [findNdefData] returns the suffix of the buffer that starts at the
    leftmost such byte. *)
Theorem findNdefData_header_fallback (data : buffer) (p : nat) (b : Z) :
  (∀ q L, ¬ valid_tlv data q L) →
  data !! p = Some b →
  is_header b →
  (p + 3 < length data)%nat →
  (∀ q b', (q < p)%nat → data !! q = Some b' → ¬ is_header b') →
  findNdefData data = Some (drop p data).
Proof.
  intros Hno Hb Hh Hscan Hleft. unfold findNdefData.
  rewrite tlv_scan_none by done.
  apply (for_range_leftmost _ (Z.of_nat p)).
  - unfold len. lia.
  - by apply header_body_header with b.
  - intros q Hq. apply header_body_other. intros b'. apply Hleft. lia.
Qed.

Lemma findNdefData_header_fallback_witness :
  findNdefData [0x00; 0xD1; 0x01; 0x01; 0x54; 0x00]
  = Some [0xD1; 0x01; 0x01; 0x54; 0x00].
Proof.
  apply (findNdefData_header_fallback [0x00; 0xD1; 0x01; 0x01; 0x54; 0x00] 1 0xD1).
  - intros q L (Htag & _). do 7 (destruct q as [| q]; try discriminate).
  - reflexivity.
  - split; [reflexivity | split; by vm_compute].
  - simpl. lia.
  - intros q b' Hq Hb' [Hbit _].
    destruct q as [| q]; [| lia]. injection Hb' as <-. discriminate.
Defined.

(** C6 as stated fails when the only header byte sits in the last three
    bytes: the fallback loop stops at [length - 3]. *)
Lemma findNdefData_header_at_end_missed :
  let data := [0x00; 0xD1; 0x01; 0x54] in
  is_buffer data
  ∧ (∀ q L, ¬ valid_tlv data q L)
  ∧ data !! 1%nat = Some 0xD1
  ∧ is_header 0xD1
  ∧ (∀ q b', (q < 1)%nat → data !! q = Some b' → ¬ is_header b')
  ∧ findNdefData data = None
  ∧ findNdefData data ≠ Some (drop 1 data).
Proof.
  intros data. subst data. split; [repeat constructor; lia |].
  split.
  { intros q L (Htag & _). do 5 (destruct q as [| q]; try discriminate). }
  split; [reflexivity |].
  split; [split; [reflexivity | split; by vm_compute] |].
  split; [| split; [reflexivity | discriminate]].
  intros q b' Hq Hb' [Hbit _].
  destruct q as [| q]; [| lia]. injection Hb' as <-. discriminate.
Qed.

Lemma findNdefData_short (data : buffer) :
  (length data < 3)%nat → findNdefData data = None.
Proof.
  intros Hshort. unfold findNdefData, len.
  rewrite !for_range_empty by lia. done.
Qed.

Lemma findNdefData_neither (data : buffer) :
  (∀ q L, ¬ valid_tlv data q L) →
  (∀ q b, data !! q = Some b → ¬ is_header b) →
  findNdefData data = None.
Proof.
  intros Htlv Hhdr. unfold findNdefData.
  rewrite tlv_scan_none by done.
  apply for_range_None. intros q _. apply header_body_other, Hhdr.
Qed.

Lemma resume_Some (c : Continuation) (k : nat) (s s' : Session) :
  resume c k s = Some s' →
  pending s !! k = Some c ∧ s' = set_pending (delete k (pending s)) s.
Proof.
  unfold resume. destruct (pending s !! k) as [c' |]; [| done].
  case_bool_decide; [| done]. intros [= <-]. by subst.
Qed.

(** C8: a buffer with neither a valid 0x03 TLV nor a byte with
    Message-Begin set and Type-Name-Format in [1, 6], and likewise every
    buffer shorter than 3 bytes, makes [findNdefData] return null; the card
    handler then only logs that no NDEF data was found and ends, with no
    decode and no replay. *)
Theorem findNdefData_no_pattern (lib : NdefLib) (data : buffer) :
  ((∀ q L, ¬ valid_tlv data q L) ∧ (∀ q b, data !! q = Some b → ¬ is_header b))
  ∨ (length data < 3)%nat →
  findNdefData data = None
  ∧ ∀ s k s', step lib s (ReadSettled k (inr data)) = Some s' →
      trace s' = trace s ++ [ConsoleLog "No valid NDEF data found."]
      ∧ pending s' = delete k (pending s)
      ∧ processingCard s' = false.
Proof.
  intros Hdata.
  assert (findNdefData data = None) as Hnone.
  { destruct Hdata as [[Htlv Hhdr] | Hshort].
    - by apply findNdefData_neither.
    - by apply findNdefData_short. }
  split; [done |].
  intros s k s' Hstep. simpl in Hstep.
  destruct (resume AwaitRead k s) as [s1 |] eqn:Hres; [| done].
  apply resume_Some in Hres as [_ ->].
  injection Hstep as <-. unfold after_read. rewrite Hnone. done.
Qed.

Lemma findNdefData_no_pattern_witness :
  let data := [0x00; 0x10; 0x20; 0x30] in
  findNdefData data = None
  ∧ ∀ s k s',
      step (lib_const [] "x") s (ReadSettled k (inr data)) = Some s' →
      trace s' = trace s ++ [ConsoleLog "No valid NDEF data found."]
      ∧ pending s' = delete k (pending s)
      ∧ processingCard s' = false.
Proof.
  intros data. apply (findNdefData_no_pattern (lib_const [] "x") data).
  subst data. left. split.
  - intros q L (Htag & _). do 5 (destruct q as [| q]; try discriminate).
  - intros q b Hb [Hbit _].
    destruct q as [| [| [| [| q]]]]; simplify_eq/=; discriminate.
Defined.

(** ** The replay monad *)

Lemma bind_Return {A B} (m : M A) (f : A → M B) tr a tr' :
  m tr = (Return a, tr') → (m ≫= f) tr = f a tr'.
Proof. intros Hm. unfold mbind, M_bind, bind. by rewrite Hm. Qed.

Lemma fuel_safe_ret {A} (a : A) : fuel_safe (mret a).
Proof. intros tr. done. Qed.

Lemma fuel_safe_emit e : fuel_safe (emit e).
Proof. intros tr. done. Qed.

Lemma fuel_safe_await kb c : fuel_safe (await_kb kb c).
Proof. intros tr. unfold await_kb. by destruct (kb (kb_calls tr) c). Qed.

Lemma fuel_safe_bind {A B} (m : M A) (f : A → M B) :
  fuel_safe m → (∀ a, fuel_safe (f a)) → fuel_safe (m ≫= f).
Proof.
  intros Hm Hf tr. unfold mbind, M_bind, bind.
  specialize (Hm tr). destruct (m tr) as [[a | e |] tr']; simpl in *;
    [apply Hf | done | done].
Qed.

Lemma fuel_safe_try {A} (m : M A) (h : JsError → M A) :
  fuel_safe m → (∀ e, fuel_safe (h e)) → fuel_safe (try_catch m h).
Proof.
  intros Hm Hh tr. unfold try_catch.
  specialize (Hm tr). destruct (m tr) as [[a | e |] tr']; simpl in *;
    [done | apply Hh | done].
Qed.

Create HintDb fuel.

#[local] Hint Resolve fuel_safe_ret fuel_safe_emit fuel_safe_await
  fuel_safe_bind : fuel.

Lemma fuel_safe_for_each body idxs :
  (∀ j, fuel_safe (body j)) → fuel_safe (for_each body idxs).
Proof.
  intros Hbody. induction idxs as [| j idxs IH]; simpl; auto with fuel.
Qed.

Lemma fuel_safe_type_char kb c : fuel_safe (type_char kb c).
Proof. unfold type_char. destruct (Ascii.eqb c "/"); auto with fuel. Qed.

Lemma fuel_safe_type_chunk kb chunk : fuel_safe (type_chunk kb chunk).
Proof.
  apply fuel_safe_for_each. intros j.
  destruct (chunk !! Z.to_nat j); [apply fuel_safe_type_char | auto with fuel].
Qed.

(** One unit of fuel per remaining character is enough for the chunk loop,
    whatever the keyboard does. *)
Lemma fuel_safe_chunk_loop kb text fuel (i : Z) :
  Z.max 0 (len text - i) < Z.of_nat fuel →
  fuel_safe (chunk_loop fuel kb text i).
Proof.
  revert i. induction fuel as [| fuel IH]; intros i Hfuel; [lia |].
  simpl. destruct (Z.ltb_spec i (len text)) as [Hlt | Hge]; [| auto with fuel].
  apply fuel_safe_bind; [apply fuel_safe_type_chunk | intros _].
  apply fuel_safe_bind; [auto with fuel | intros _].
  apply IH. unfold chunkSize. lia.
Qed.

Lemma fuel_safe_typeText_try kb text pressEnter :
  fuel_safe (typeText_try kb text pressEnter).
Proof.
  unfold typeText_try.
  repeat (apply fuel_safe_bind; [| intros _]); auto with fuel.
  - apply fuel_safe_chunk_loop. unfold len. lia.
  - destruct pressEnter; auto with fuel.
Qed.

Lemma bind_Return_inv {A B} (m : M A) (f : A → M B) tr b tr' :
  (m ≫= f) tr = (Return b, tr') →
  ∃ a tr1, m tr = (Return a, tr1) ∧ f a tr1 = (Return b, tr').
Proof.
  unfold mbind, M_bind, bind.
  destruct (m tr) as [[a | e |] tr1]; [eauto | done | done].
Qed.

(** A completed [try] block has called [resolve] last. *)
Lemma typeText_try_Return kb text pressEnter tr a tr' :
  typeText_try kb text pressEnter tr = (Return a, tr') →
  ∃ tr0, tr' = tr0 ++ [Resolve].
Proof.
  unfold typeText_try. intros H.
  do 4 (apply bind_Return_inv in H as (_ & ? & _ & H)).
  injection H as _ <-. eauto.
Qed.

(** C9: the promise returned by [typeText] is fulfilled for every text and
    every behaviour of the keyboard, and never rejected: an error thrown by
    a keyboard call is caught in the timer callback and logged, and the
    callback then calls [resolve] as it does after a complete replay, so the
    caller sees the same settled promise in both cases. *)
Theorem typeText_always_resolves (kb : Keyboard) (text : string)
    (pressEnter : bool) :
  fst (typeText kb text pressEnter) = Return tt
  ∧ promise_state (typeText kb text pressEnter) = Fulfilled
  ∧ (∀ e tr,
       typeText_try kb (list_ascii_of_string text) pressEnter [] = (Throw e, tr) →
       typeText kb text pressEnter
       = (Return tt, tr ++ [LogTypingError e; Resolve])).
Proof.
  unfold typeText, typeText_callback, try_catch, promise_state.
  pose proof (fuel_safe_typeText_try kb (list_ascii_of_string text) pressEnter [])
    as Hfuel.
  destruct (typeText_try kb (list_ascii_of_string text) pressEnter [])
    as [[[] | e |] tr] eqn:Htry; simpl in Hfuel; [| | done].
  - apply typeText_try_Return in Htry as [tr0 ->]. simpl.
    split; [done |]. split; [| done].
    rewrite bool_decide_eq_true_2; [done |].
    apply elem_of_app. right. by apply list_elem_of_singleton.
  - simpl. split; [done |]. split.
    + rewrite bool_decide_eq_true_2; [done |].
      apply elem_of_app. right. by apply list_elem_of_singleton.
    + intros e' tr' [= <- <-]. unfold mbind, M_bind, bind, emit.
      by rewrite <- app_assoc.
Qed.

Lemma typeText_always_resolves_witness :
  typeText jammed_keyboard "abc" true
  = (Return tt,
     [Kb (PressKey Escape); Kb (ReleaseKey Escape); Kb (TypeChar "a");
      LogTypingError (mkError "jammed"); Resolve]).
Proof.
  apply (proj2 (proj2 (typeText_always_resolves jammed_keyboard "abc" true))
           (mkError "jammed")
           [Kb (PressKey Escape); Kb (ReleaseKey Escape); Kb (TypeChar "a")]).
  reflexivity.
Defined.

(** ** The replay on a keyboard whose calls all succeed *)

Lemma kb_calls_app tr1 tr2 : kb_calls (tr1 ++ tr2) = kb_calls tr1 ++ kb_calls tr2.
Proof. apply omap_app. Qed.

Lemma kb_calls_map_Kb cs : kb_calls (map Kb cs) = cs.
Proof. induction cs as [| c cs IH]; [done |]. simpl. by rewrite IH. Qed.

Lemma slice_chunk {A} (text : list A) (n : nat) :
  (n < length text)%nat →
  slice text (Z.of_nat n) (Z.of_nat n + chunkSize)
  = take (Z.to_nat chunkSize) (drop n text).
Proof.
  intros Hn. unfold chunkSize.
  destruct (decide (n + 50 ≤ length text)%nat) as [Hle | Hgt].
  - replace (Z.of_nat n + 50) with (Z.of_nat (n + 50)) by lia.
    rewrite slice_nat by lia. f_equal. lia.
  - unfold slice, clamp_index, len.
    destruct (Z.ltb_spec (Z.of_nat n) 0); [lia |].
    destruct (Z.ltb_spec (Z.of_nat n + 50) 0); [lia |].
    rewrite (Z.min_l (Z.of_nat n)), (Z.min_r (Z.of_nat n + 50)) by lia.
    rewrite Nat2Z.id.
    rewrite !take_ge; [done | |]; rewrite length_drop; lia.
Qed.

Section QuietKeyboard.

Variable kb : Keyboard.
Hypothesis kb_quiet : ∀ done_ c, kb done_ c = None.

Lemma await_kb_quiet c tr : await_kb kb c tr = (Return tt, tr ++ [Kb c]).
Proof. unfold await_kb. by rewrite kb_quiet. Qed.

Lemma type_char_quiet c tr :
  type_char kb c tr = (Return tt, tr ++ map Kb (calls_of_char c)).
Proof.
  unfold type_char, calls_of_char. destruct (Ascii.eqb c "/").
  - erewrite bind_Return by apply await_kb_quiet.
    rewrite await_kb_quiet. by rewrite <- app_assoc.
  - apply await_kb_quiet.
Qed.

(** The inner loop types the characters of the chunk in order. *)
Lemma type_chunk_from (before chunk : list ascii) tr :
  for_each
    (fun j => match (before ++ chunk) !! Z.to_nat j with
              | Some char => type_char kb char
              | None => mret tt
              end)
    (seqZ (len before) (len chunk)) tr
  = (Return tt, tr ++ map Kb (flat_map calls_of_char chunk)).
Proof.
  revert before tr. induction chunk as [| c chunk IH]; intros before tr.
  - simpl. by rewrite app_nil_r.
  - unfold len at 2. rewrite seqZ_cons by (simpl; lia). simpl for_each.
    erewrite bind_Return.
    2: { unfold len. rewrite Nat2Z.id, list_lookup_middle by done.
         apply type_char_quiet. }
    replace (Z.succ (len before)) with (len (before ++ [c]))
      by (unfold len; rewrite length_app; simpl; lia).
    replace (Z.pred (Z.of_nat (S (length chunk)))) with (len chunk)
      by (unfold len; lia).
    replace (before ++ c :: chunk) with ((before ++ [c]) ++ chunk)
      by (by rewrite <- app_assoc).
    rewrite IH. simpl. by rewrite map_app, app_assoc.
Qed.

Lemma type_chunk_quiet chunk tr :
  type_chunk kb chunk tr = (Return tt, tr ++ map Kb (flat_map calls_of_char chunk)).
Proof. apply (type_chunk_from [] chunk). Qed.

(** With enough fuel the chunk loop completes, and its keyboard calls are
    those of the characters from index [n] on, in order. *)
Lemma chunk_loop_quiet text fuel (n : nat) tr :
  (length text - n < fuel)%nat →
  ∃ tr', chunk_loop fuel kb text (Z.of_nat n) tr = (Return tt, tr')
         ∧ kb_calls tr' = kb_calls tr ++ flat_map calls_of_char (drop n text).
Proof.
  revert n tr. induction fuel as [| fuel IH]; intros n tr Hfuel; [lia |].
  simpl. destruct (Z.ltb_spec (Z.of_nat n) (len text)) as [Hlt | Hge].
  - unfold len in Hlt.
    erewrite bind_Return by (rewrite slice_chunk by lia; apply type_chunk_quiet).
    erewrite bind_Return by reflexivity.
    replace (Z.of_nat n + chunkSize) with (Z.of_nat (n + 50))
      by (unfold chunkSize; lia).
    destruct (IH (n + 50)%nat
                ((tr ++ map Kb (flat_map calls_of_char
                                  (take (Z.to_nat chunkSize) (drop n text))))
                 ++ [Yield])) as (tr' & Hrun & Hcalls); [lia |].
    exists tr'. split; [done |]. rewrite Hcalls, !kb_calls_app.
    simpl. rewrite app_nil_r, <- app_assoc. f_equal.
    rewrite kb_calls_map_Kb.
    rewrite <- (take_drop (Z.to_nat chunkSize) (drop n text)) at 2.
    by rewrite flat_map_app, drop_drop.
  - exists tr. split; [done |].
    rewrite drop_ge by (unfold len in Hge; lia). by rewrite app_nil_r.
Qed.

End QuietKeyboard.

Lemma strokes_of_char_calls (chars : list ascii) (rest : list KbCall) :
  strokes_of_calls (flat_map calls_of_char chars ++ rest)
  = app (map stroke_of_char chars) <$> strokes_of_calls rest.
Proof.
  induction chars as [| c chars IH].
  - simpl. by destruct (strokes_of_calls rest).
  - change (flat_map calls_of_char (c :: chars))
      with (calls_of_char c ++ flat_map calls_of_char chars).
    rewrite <- app_assoc. rewrite map_cons.
    unfold calls_of_char at 1, stroke_of_char at 1.
    destruct (Ascii.eqb c "/").
    + change (strokes_of_calls ([PressKey Tab; ReleaseKey Tab] ++ ?l))
        with (cons (Stroke Tab) <$> strokes_of_calls l).
      rewrite IH. by destruct (strokes_of_calls rest).
    + change (strokes_of_calls ([TypeChar c] ++ ?l))
        with (cons (Typed c) <$> strokes_of_calls l).
      rewrite IH. by destruct (strokes_of_calls rest).
Qed.

Lemma typeText_quiet_calls (kb : Keyboard) (text : string) (pressEnter : bool) :
  (∀ done_ c, kb done_ c = None) →
  ∃ tr, typeText kb text pressEnter = (Return tt, tr)
        ∧ kb_calls tr
          = [PressKey Escape; ReleaseKey Escape]
            ++ flat_map calls_of_char (list_ascii_of_string text)
            ++ (if pressEnter then [PressKey Enter; ReleaseKey Enter] else []).
Proof.
  intros Hquiet. unfold typeText, typeText_callback, try_catch, typeText_try.
  set (chars := list_ascii_of_string text).
  do 2 (erewrite bind_Return by (apply await_kb_quiet; exact Hquiet)).
  destruct (chunk_loop_quiet kb Hquiet chars (S (length chars)) 0
              (([] ++ [Kb (PressKey Escape)]) ++ [Kb (ReleaseKey Escape)]))
    as (tr & Hrun & Hcalls); [lia |].
  erewrite bind_Return by exact Hrun.
  destruct pressEnter.
  - erewrite bind_Return.
    2: { erewrite bind_Return by (apply await_kb_quiet; exact Hquiet).
         apply await_kb_quiet; exact Hquiet. }
    eexists. split; [reflexivity |].
    rewrite !kb_calls_app, Hcalls. simpl.
    by rewrite ?app_nil_r, <- ?app_assoc.
  - erewrite bind_Return by reflexivity.
    eexists. split; [reflexivity |].
    rewrite !kb_calls_app, Hcalls. simpl.
    by rewrite ?app_nil_r, <- ?app_assoc.
Qed.

(** The robotjs closure, with one unit of fuel per remaining character and
    one more, ends, and its robot calls are those of the characters from
    index [n] on, then Enter if asked. *)
Lemma type_closure_strokes (text : list ascii) (pressEnter : bool) fuel (n : nat) :
  (length text - n < fuel)%nat →
  ∃ tr, Part000.type_closure fuel text pressEnter (Z.of_nat n) = Some tr
        ∧ map stroke_of_robot (Part000.robot_calls tr)
          = map stroke_of_char (drop n text)
            ++ (if pressEnter then [Stroke Enter] else []).
Proof.
  revert n. induction fuel as [| fuel IH]; intros n Hfuel; [lia |].
  simpl. destruct (Z.ltb_spec (Z.of_nat n) (len text)) as [Hlt | Hge].
  - unfold len in Hlt. rewrite Nat2Z.id.
    destruct (lookup_lt_is_Some_2 text n) as [c Hc]; [lia |].
    rewrite Hc, (drop_S _ _ _ Hc).
    replace (Z.of_nat n + 1) with (Z.of_nat (S n)) by lia.
    destruct (IH (S n)) as (tr & -> & Htr); [lia |].
    destruct (Z.of_nat (S n) `mod` 10 =? 0); eexists; (split; [reflexivity |]);
      simpl; rewrite Htr; f_equal;
      unfold stroke_of_char; by destruct (Ascii.eqb c "/").
  - eexists. split; [reflexivity |].
    rewrite drop_ge by (unfold len in Hge; lia). by destruct pressEnter.
Qed.

(** C2 (amended): on a keyboard whose calls succeed, the replay of
    src/index.js first emits one Escape keystroke and then exactly one
    keystroke per character of the text, in order - Tab for a forward slash,
    the character itself otherwise - followed by one Enter keystroke exactly
    when [pressEnter] is set, and nothing else; the robotjs variant emits the
    same keystrokes without the leading Escape. *)
Theorem typeText_replay (kb : Keyboard) (text : string) (pressEnter : bool) :
  (∀ done_ c, kb done_ c = None) →
  keystrokes (typeText kb text pressEnter)
  = Some (Stroke Escape :: replay_of text pressEnter)
  ∧ keystrokes000 (Part000.typeText text pressEnter)
    = Some (replay_of text pressEnter).
Proof.
  intros Hquiet. split.
  - destruct (typeText_quiet_calls kb text pressEnter Hquiet)
      as (tr & -> & Hcalls).
    unfold keystrokes, replay_of. simpl snd. rewrite Hcalls. simpl.
    rewrite strokes_of_char_calls. by destruct pressEnter.
  - unfold Part000.typeText, keystrokes000, replay_of. cbv zeta.
    destruct (type_closure_strokes (list_ascii_of_string text) pressEnter
                (S (length (list_ascii_of_string text))) 0)
      as (tr & Hrun & Hstrokes); [lia |].
    change (Z.of_nat 0) with 0 in Hrun. rewrite Hrun. simpl. by rewrite Hstrokes.
Qed.

Lemma typeText_replay_witness :
  keystrokes (typeText quiet_keyboard "a/b" true)
  = Some [Stroke Escape; Typed "a"; Stroke Tab; Typed "b"; Stroke Enter]
  ∧ keystrokes000 (Part000.typeText "a/b" true)
    = Some [Typed "a"; Stroke Tab; Typed "b"; Stroke Enter].
Proof.
  apply (typeText_replay quiet_keyboard "a/b" true). reflexivity.
Defined.

(** C2 as stated fails on src/index.js: the replay of the text a, without
    Enter, starts with an Escape keystroke. *)
Lemma typeText_escape_first :
  keystrokes (typeText quiet_keyboard "a" false)
  = Some [Stroke Escape; Typed "a"]
  ∧ replay_of "a" false = [Typed "a"]
  ∧ keystrokes (typeText quiet_keyboard "a" false) ≠ Some (replay_of "a" false).
Proof. split; [reflexivity |]. split; [reflexivity | discriminate]. Qed.

(** ** The text record selection *)

(** C5 (amended): the extraction step selects exactly the records whose type
    is the single character T, in message order and whatever their
    Type-Name-Format; when no record has type T the handler logs that no text
    record was found and ends, with no payload decode and no replay. *)
Theorem textRecords_by_type (lib : NdefLib) (records : list NdefRecord) :
  (∀ r, r ∈ textRecords records ↔ r ∈ records ∧ type r = "T")
  ∧ (textRecords records = [] ↔ ∀ r, r ∈ records → type r ≠ "T")
  ∧ (∀ data ndefData s,
       findNdefData data = Some ndefData →
       decodeMessage lib ndefData = inr records →
       textRecords records = [] →
       trace (after_read lib data s)
       = trace s ++ [NdefDecodeMessage ndefData;
                     ConsoleLog "No text records found."]
       ∧ pending (after_read lib data s) = pending s
       ∧ processingCard (after_read lib data s) = false).
Proof.
  split; [| split].
  - intros r. unfold textRecords. rewrite list_elem_of_filter. tauto.
  - unfold textRecords. split.
    + intros Hnil r Hr Ht. by apply (filter_nil_not_elem_of _ _ r Hnil).
    + intros Hno. induction records as [| r records IH]; [done |].
      rewrite filter_cons_False by (apply Hno; left).
      apply IH. intros r' Hr'. apply Hno. by right.
  - intros data ndefData s Hfind Hdec Hnil. unfold after_read.
    rewrite Hfind, Hdec, Hnil. simpl. by rewrite <- app_assoc.
Qed.

Lemma textRecords_by_type_witness :
  let r := mkRecord 1 "U" [] [0x01; 0x61] in
  let s' := after_read (lib_const [r] "x") [0x03; 0x01; 0xD1; 0xFE] init in
  trace s' = [NdefDecodeMessage [0xD1]; ConsoleLog "No text records found."]
  ∧ pending s' = []
  ∧ processingCard s' = false.
Proof.
  intros r s'.
  apply (proj2 (proj2 (textRecords_by_type (lib_const [r] "x") [r]))
           [0x03; 0x01; 0xD1; 0xFE] [0xD1] init);
    reflexivity.
Defined.

(** C5 as stated fails: a record of type T whose Type-Name-Format is 2
    (media type) is selected, and its payload is replayed. *)
Lemma textRecords_ignores_tnf :
  let r := mkRecord 2 "T" [] [0x02; 0x65; 0x6E; 0x68; 0x69] in
  textRecords [r] = [r]
  ∧ well_known_text [r] = []
  ∧ trace (after_read (lib_const [r] "hi") [0x03; 0x01; 0xD2; 0xFE] init)
    = [NdefDecodeMessage [0xD2];
       NdefDecodePayload [0x02; 0x65; 0x6E; 0x68; 0x69];
       ConsoleLog ("Text found: " +:+ dquote +:+ "hi" +:+ dquote);
       ConsoleLog "Typing text...";
       TypeText "hi" true].
Proof. split; [reflexivity |]. split; reflexivity. Qed.

(** ** The session controller *)

Lemma accepts_false (s : Session) (u : uid) :
  accepts s u = false ↔ processingCard s = true ∨ lastProcessedCard s = Some u.
Proof.
  unfold accepts. rewrite negb_false_iff, orb_true_iff, bool_decide_eq_true.
  tauto.
Qed.

Lemma on_card_accepted (s : Session) (u : uid) :
  accepts s u = true →
  on_card u s
  = mkSession (Some u) true (pending s ++ [AwaitRead])
      (trace s ++ [ConsoleLog ("Card detected: " +:+ u);
                   ConsoleLog "Reading tag..."; ReaderRead 4 256]).
Proof.
  unfold accepts, on_card. simpl. intros Hacc.
  apply negb_true_iff in Hacc. rewrite Hacc.
  unfold suspend, set_pending, log. simpl. by rewrite <- !app_assoc.
Qed.

Lemma on_card_ignored (s : Session) (u : uid) :
  accepts s u = false →
  on_card u s
  = mkSession (lastProcessedCard s) (processingCard s) (pending s)
      (trace s ++ [ConsoleLog ("Card detected: " +:+ u);
                   ConsoleLog "Ignoring duplicate card or concurrent processing"]).
Proof.
  unfold accepts, on_card. simpl. intros Hacc.
  apply negb_false_iff in Hacc. rewrite Hacc.
  unfold log. simpl. by rewrite <- !app_assoc.
Qed.

(** What the continuation after the read leaves behind. *)
Lemma after_read_shape (lib : NdefLib) (data : buffer) (s : Session) :
  lastProcessedCard (after_read lib data s) = lastProcessedCard s
  ∧ ((pending (after_read lib data s) = pending s
      ∧ processingCard (after_read lib data s) = false)
     ∨ (pending (after_read lib data s) = pending s ++ [AwaitTypeText]
        ∧ processingCard (after_read lib data s) = processingCard s)).
Proof.
  unfold after_read.
  destruct (findNdefData data) as [ndefData |]; [| by auto].
  destruct (decodeMessage lib ndefData) as [err | records]; [by auto |].
  destruct (textRecords records) as [| r0 rest]; [by auto |].
  destruct (decodePayload lib (payload r0)) as [err | text]; by auto.
Qed.

(** Only the two card events write [lastProcessedCard]. *)
Lemma step_resumption_last (lib : NdefLib) (s s' : Session) (e : Event) :
  step lib s e = Some s' →
  match e with Card _ | CardOff _ => True
             | _ => lastProcessedCard s' = lastProcessedCard s end.
Proof.
  destruct e as [u | u | k r | k r | k]; simpl; [done | done | | |];
    destruct (resume _ k s) as [s1 |] eqn:Hres; try done;
    apply resume_Some in Hres as [_ ->]; intros [= <-].
  - destruct r as [err | data]; [done |].
    by destruct (after_read_shape lib data (set_pending (delete k (pending s)) s))
      as [-> _].
  - by destruct r.
  - done.
Qed.

Lemma step_keeps_last (lib : NdefLib) (u : uid) (s s' : Session) (e : Event) :
  lastProcessedCard s = Some u →
  step lib s e = Some s' →
  e ≠ CardOff u →
  (∀ v, e = Card v → v ≠ u → accepts s v = false) →
  lastProcessedCard s' = Some u.
Proof.
  intros Hlast Hstep Hoff Hothers.
  destruct e as [v | v | k r | k r | k].
  - injection Hstep as <-. rewrite on_card_ignored; [done |].
    destruct (decide (v = u)) as [-> | Hne].
    + apply accepts_false. by right.
    + by apply Hothers.
  - injection Hstep as <-. unfold on_card_off. simpl.
    rewrite bool_decide_eq_false_2; [done |].
    rewrite Hlast. intros [= ->]. by apply Hoff.
  - apply step_resumption_last in Hstep. congruence.
  - apply step_resumption_last in Hstep. congruence.
  - apply step_resumption_last in Hstep. congruence.
Qed.

(** While [u] is the stored identifier, and until [u] is removed or another
    card starts a pipeline, no card-detected event for [u] starts one and
    [u] stays stored. *)
Lemma last_stable (lib : NdefLib) (u : uid) (evs : list Event) (s : Session) :
  lastProcessedCard s = Some u →
  no_removal u evs →
  pipelines_others lib u s evs = 0%nat →
  pipelines_for lib u s evs = 0%nat
  ∧ ∀ s', run lib s evs = Some s' → lastProcessedCard s' = Some u.
Proof.
  revert s. induction evs as [| e evs IH]; intros s Hlast Hoff Hothers.
  - split; [done |]. by intros s' [= <-].
  - apply Forall_cons in Hoff as [He Hoff].
    unfold pipelines_others, pipelines_for in *. simpl in *.
    apply Nat.eq_add_0 in Hothers as [Hhead Hrest].
    assert (∀ v, e = Card v → v ≠ u → accepts s v = false) as Hquiet.
    { intros v -> Hv. rewrite bool_decide_eq_true_2 in Hhead by done.
      simpl in Hhead. by destruct (accepts s v). }
    assert (match e with
            | Card v => if bool_decide (v = u) && accepts s v then 1 else 0
            | _ => 0
            end = 0)%nat as Hu.
    { destruct e as [v | | | |]; try done.
      destruct (decide (v = u)) as [-> | Hv].
      - assert (accepts s u = false) as -> by (apply accepts_false; by right).
        by rewrite andb_false_r.
      - by rewrite (bool_decide_eq_false_2 (v = u)). }
    rewrite Hu. simpl.
    destruct (step lib s e) as [s1 |] eqn:Hstep; [| done].
    apply (IH s1); [| done | done].
    by apply (step_keeps_last lib u s s1 e).
Qed.

Lemma at_most_one_pipeline (lib : NdefLib) (u : uid) (evs : list Event)
    (s : Session) :
  no_removal u evs →
  pipelines_others lib u s evs = 0%nat →
  (pipelines_for lib u s evs ≤ 1)%nat.
Proof.
  revert s. induction evs as [| e evs IH]; intros s Hoff Hothers.
  - unfold pipelines_for. simpl. lia.
  - apply Forall_cons in Hoff as [He Hoff].
    unfold pipelines_others, pipelines_for in *. simpl in *.
    apply Nat.eq_add_0 in Hothers as [Hhead Hrest].
    destruct (step lib s e) as [s1 |] eqn:Hstep.
    + destruct e as [v | v | k r | k r | k];
        try (specialize (IH s1 Hoff Hrest); lia).
      destruct (decide (v = u)) as [-> | Hv];
        [| rewrite (bool_decide_eq_false_2 (v = u)) by done;
           specialize (IH s1 Hoff Hrest); simpl; lia].
      rewrite (bool_decide_eq_true_2 (u = u)) by done.
      simpl. destruct (accepts s u) eqn:Hacc;
        [| specialize (IH s1 Hoff Hrest); lia].
      injection Hstep as <-.
      destruct (last_stable lib u evs (on_card u s)) as [Hzero _];
        [by rewrite on_card_accepted | done | done |].
      unfold pipelines_for in Hzero. lia.
    + destruct e as [v | v | k r | k r | k]; simpl in *; try done; lia.
Qed.

Lemma removed_stays_clear (lib : NdefLib) (evs : list Event) (s s' : Session) :
  lastProcessedCard s = None →
  no_detection evs →
  run lib s evs = Some s' →
  lastProcessedCard s' = None.
Proof.
  revert s. induction evs as [| e evs IH]; intros s Hlast Hno Hrun.
  - by injection Hrun as <-.
  - apply Forall_cons in Hno as [He Hno]. simpl in Hrun.
    destruct (step lib s e) as [s1 |] eqn:Hstep; [| done].
    apply (IH s1); [| done | done].
    destruct e as [v | v | k r | k r | k]; [done | | | |].
    + injection Hstep as <-. unfold on_card_off. simpl.
      by case_bool_decide.
    + apply step_resumption_last in Hstep. congruence.
    + apply step_resumption_last in Hstep. congruence.
    + apply step_resumption_last in Hstep. congruence.
Qed.

Lemma on_card_off_last (s : Session) (v : uid) :
  lastProcessedCard (on_card_off v s)
  = if bool_decide (lastProcessedCard s = Some v) then None
    else lastProcessedCard s.
Proof. unfold on_card_off. simpl. by case_bool_decide. Qed.




(** C7 (amended): the stored identifier records every card whose pipeline
    has started, whether the pipeline completes or fails: from the start of
    the pipeline of [u], through its failure with an error, and until [u] is
    removed or another card starts a pipeline, [u] stays stored and every
    repeated card-detected event for [u] is suppressed by the duplicate
    guard. *)
Theorem started_card_stays_recorded (lib : NdefLib) (s s' : Session) (u : uid)
    (evs : list Event) :
  accepts s u = true →
  no_removal u evs →
  pipelines_others lib u (on_card u s) evs = 0%nat →
  run lib (on_card u s) evs = Some s' →
  lastProcessedCard s' = Some u
  ∧ accepts s' u = false
  ∧ pipelines_for lib u (on_card u s) evs = 0%nat.
Proof.
  intros Hacc Hoff Hothers Hrun.
  destruct (last_stable lib u evs (on_card u s)) as [Hzero Hlast];
    [by rewrite on_card_accepted | done | done |].
  split; [by apply Hlast |]. split; [| done].
  apply accepts_false. right. by apply Hlast.
Qed.

Lemma started_card_stays_recorded_witness :
  let s' :=
    mkSession (Some "A") false []
      [ConsoleLog "Card detected: A"; ConsoleLog "Reading tag...";
       ReaderRead 4 256; ConsoleError "Error: read failed";
       ConsoleLog "Card detected: A";
       ConsoleLog "Ignoring duplicate card or concurrent processing"] in
  lastProcessedCard s' = Some "A"
  ∧ accepts s' "A" = false
  ∧ pipelines_for (lib_const [] "x") "A" (on_card "A" init)
      [ReadSettled 0 (inl (mkError "read failed")); Card "A"]
    = 0%nat.
Proof.
  intros s'.
  apply (started_card_stays_recorded (lib_const [] "x") init s' "A"
           [ReadSettled 0 (inl (mkError "read failed")); Card "A"]).
  - reflexivity.
  - repeat constructor; discriminate.
  - reflexivity.
  - reflexivity.
Defined.

(** C7 as stated fails: after the read for the card A has failed, A is the
    stored identifier although its pipeline did not complete, and the next
    detection of A is ignored. *)
Lemma failed_card_is_recorded :
  ∃ s, run (lib_const [] "x") init
         [Card "A"; ReadSettled 0 (inl (mkError "read failed"))] = Some s
       ∧ reads (trace s) = 1%nat
       ∧ processingCard s = false
       ∧ lastProcessedCard s = Some "A"
       ∧ accepts s "A" = false
       ∧ (∃ s', step (lib_const [] "x") s (Card "A") = Some s'
                ∧ reads (trace s') = 1%nat
                ∧ pending s' = []).
Proof.
  eexists. split; [reflexivity |]. repeat split.
  eexists. split; [reflexivity |]. split; reflexivity.
Qed.

(** ** The processing gate *)

Lemma gate_inv_init : gate_inv init.
Proof. reflexivity. Qed.

Lemma resume_gate (c : Continuation) (k : nat) (s s1 : Session) :
  gate_inv s →
  resume c k s = Some s1 →
  pending s = [c] ∧ s1 = mkSession (lastProcessedCard s) true [] (trace s).
Proof.
  intros Hinv Hres. apply resume_Some in Hres as [Hk ->].
  unfold gate_inv in Hinv. unfold set_pending.
  destruct (pending s) as [| c0 [| c1 rest]]; [done | | done].
  destruct k as [| k]; [| done]. injection Hk as ->.
  by rewrite Hinv.
Qed.

Lemma gate_inv_step (lib : NdefLib) (s s' : Session) (e : Event) :
  gate_inv s → step lib s e = Some s' → gate_inv s'.
Proof.
  intros Hinv Hstep. destruct e as [u | u | k r | k r | k]; simpl in Hstep.
  - injection Hstep as <-. destruct (accepts s u) eqn:Hacc.
    + rewrite on_card_accepted by done.
      unfold accepts in Hacc.
      apply negb_true_iff, orb_false_iff in Hacc as [Hproc _].
      unfold gate_inv in *. simpl.
      destruct (pending s) as [| c0 [| c1 rest]]; [done | congruence | done].
    + rewrite on_card_ignored by done. exact Hinv.
  - injection Hstep as <-. unfold on_card_off. simpl.
    case_bool_decide; exact Hinv.
  - destruct (resume AwaitRead k s) as [s1 |] eqn:Hres; [| done].
    apply (resume_gate _ _ _ _ Hinv) in Hres as [_ ->].
    injection Hstep as <-. destruct r as [err | data]; [done |].
    destruct (after_read_shape lib data
                (mkSession (lastProcessedCard s) true [] (trace s)))
      as [_ [[Hp Hf] | [Hp Hf]]]; unfold gate_inv; by rewrite Hp, Hf.
  - destruct (resume AwaitTypeText k s) as [s1 |] eqn:Hres; [| done].
    apply (resume_gate _ _ _ _ Hinv) in Hres as [_ ->].
    injection Hstep as <-. by destruct r.
  - destruct (resume ResetTimer k s) as [s1 |] eqn:Hres; [| done].
    apply (resume_gate _ _ _ _ Hinv) in Hres as [_ ->].
    by injection Hstep as <-.
Qed.

Lemma gate_inv_run (lib : NdefLib) (evs : list Event) (s s' : Session) :
  gate_inv s → run lib s evs = Some s' → gate_inv s'.
Proof.
  revert s. induction evs as [| e evs IH]; intros s Hinv Hrun.
  - by injection Hrun as <-.
  - simpl in Hrun. destruct (step lib s e) as [s1 |] eqn:Hstep; [| done].
    apply (IH s1); [| done]. by apply (gate_inv_step lib s s1 e).
Qed.

(** The oldest pending continuation can always be resumed, and resuming it
    brings the end of the pipeline nearer. *)
Lemma next_step (lib : NdefLib) (rd : JsError + buffer) (ty : JsError + unit)
    (s : Session) :
  gate_inv s → pending s ≠ [] →
  ∃ e s', next_event rd ty s = Some e
          ∧ step lib s e = Some s'
          ∧ (weight s' < weight s)%nat.
Proof.
  intros Hinv Hpend. unfold next_event, weight, gate_inv in *.
  destruct s as [last proc pend tr]. simpl in *.
  destruct pend as [| c [| c1 rest]]; [done | | done]. subst proc.
  destruct c; [destruct rd as [err | data] | destruct ty |];
    eexists; eexists; (split; [reflexivity |]); (split; [reflexivity |]);
    try (simpl; lia).
  match goal with
  | |- context [pending (after_read ?l ?d ?s0)] =>
      destruct (after_read_shape l d s0) as [_ [[Hp _] | [Hp _]]]; rewrite Hp
  end; simpl; lia.
Qed.

Lemma drain_releases (lib : NdefLib) (rd : JsError + buffer)
    (ty : JsError + unit) (n : nat) (s : Session) :
  gate_inv s → (weight s ≤ n)%nat →
  ∃ s', drain lib n rd ty s = Some s'
        ∧ pending s' = [] ∧ processingCard s' = false.
Proof.
  revert s. induction n as [| n IH]; intros s Hinv Hw.
  - exists s. unfold weight, gate_inv in *.
    destruct (pending s) as [| [] rest]; [done | lia | lia | lia].
  - destruct (decide (pending s = [])) as [Hnil | Hpend].
    + exists s. unfold gate_inv in Hinv. simpl. unfold next_event.
      rewrite Hnil in *. done.
    + destruct (next_step lib rd ty s Hinv Hpend) as (e & s1 & He & Hstep & Hlt).
      simpl. rewrite He. simpl. rewrite Hstep. simpl.
      apply IH; [by apply (gate_inv_step lib s s1 e) | lia].
Qed.

Lemma weight_le_3 (s : Session) : (weight s ≤ 3)%nat.
Proof. unfold weight. destruct (pending s) as [| [] rest]; lia. Qed.

(** C4: in every state the session controller can reach, a processing flag
    that is set has a pending continuation of the pipeline behind it, and
    resuming that continuation - whatever the read and the replay return or
    throw, and whether the scanner or the extraction find anything - resets
    the flag within three resumptions; once nothing is pending the flag is
    false. *)
Theorem processing_flag_released (lib : NdefLib) (evs : list Event)
    (s : Session) :
  run lib init evs = Some s →
  (pending s = [] → processingCard s = false)
  ∧ (processingCard s = true → ∃ c, pending s = [c])
  ∧ ∀ rd ty, ∃ s', drain lib 3 rd ty s = Some s'
                   ∧ pending s' = [] ∧ processingCard s' = false.
Proof.
  intros Hrun.
  assert (gate_inv s) as Hinv by exact (gate_inv_run lib evs init s gate_inv_init Hrun).
  split; [| split].
  - intros Hnil. unfold gate_inv in Hinv. by rewrite Hnil in Hinv.
  - intros Hproc. unfold gate_inv in Hinv.
    destruct (pending s) as [| c [| c1 rest]]; [congruence | eauto | done].
  - intros rd ty. apply drain_releases; [done | apply weight_le_3].
Qed.

Lemma processing_flag_released_witness :
  let lib := lib_const [mkRecord 1 "T" [] [0x02; 0x65; 0x6E; 0x68; 0x69]] "hi" in
  let s := on_card "A" init in
  (pending s = [] → processingCard s = false)
  ∧ (processingCard s = true → ∃ c, pending s = [c])
  ∧ ∀ rd ty, ∃ s', drain lib 3 rd ty s = Some s'
                   ∧ pending s' = [] ∧ processingCard s' = false.
Proof.
  intros lib s. apply (processing_flag_released lib [Card "A"] s).
  reflexivity.
Defined.

(** ** The two variants at the card-detected interface *)

Lemma reads_app (tr1 tr2 : list Obs) :
  reads (tr1 ++ tr2) = (reads tr1 + reads tr2)%nat.
Proof. unfold reads. by rewrite filter_app, length_app. Qed.


(** * Further properties of the code *)

(** ** The scanner, read backwards: what a result says about the buffer *)

Lemma first_return_seqZ_inv {A} (body : Z → option A) (n : nat) (m : Z) (r : A) :
  first_return body (seqZ m (Z.of_nat n)) = Some r →
  ∃ p, m <= p < m + Z.of_nat n ∧ body p = Some r
       ∧ ∀ q, m <= q < p → body q = None.
Proof.
  revert m. induction n as [| n IH]; intros m Hret; [done |].
  rewrite seqZ_cons in Hret by lia. simpl in Hret.
  destruct (body m) as [r0 |] eqn:Hm.
  - injection Hret as ->. exists m. repeat split; [lia | lia | done | lia].
  - replace (Z.pred (Z.of_nat (S n))) with (Z.of_nat n) in Hret by lia.
    apply IH in Hret as (p & Hp & Hbody & Hbefore).
    exists p. repeat split; [lia | lia | done |].
    intros q Hq. destruct (decide (q = m)) as [-> | Hne]; [done |].
    apply Hbefore. lia.
Qed.

Lemma for_range_Some_inv {A} (bound : Z) (body : Z → option A) (r : A) :
  for_range bound body = Some r →
  ∃ p, 0 <= p < bound ∧ body p = Some r ∧ ∀ q, 0 <= q < p → body q = None.
Proof.
  intros Hret.
  destruct (Z.le_gt_cases bound 0) as [Hle | Hgt].
  - by rewrite (for_range_empty bound body Hle) in Hret.
  - unfold for_range in Hret. rewrite <- (Z2Nat.id bound) in Hret by lia.
    apply first_return_seqZ_inv in Hret as (p & Hp & Hbody & Hbefore).
    exists p. repeat split; [lia | lia | done | done].
Qed.

Lemma first_return_None_inv {A} (body : Z → option A) (l : list Z) :
  first_return body l = None → Forall (fun i => body i = None) l.
Proof.
  induction l as [| i l IH]; simpl; [by constructor |].
  destruct (body i) eqn:Hi; [done |]. intros Hrest. constructor; auto.
Qed.

Lemma for_range_None_inv {A} (bound : Z) (body : Z → option A) :
  for_range bound body = None →
  ∀ q, 0 <= q < bound → body q = None.
Proof.
  intros Hnone q Hq. apply first_return_None_inv in Hnone.
  rewrite Forall_forall in Hnone. apply Hnone, elem_of_seqZ. lia.
Qed.

Lemma tlv_body_Some_inv (data : buffer) (i : Z) (r : buffer) :
  tlv_body data i = Some r →
  0 <= i ∧ ∃ L, valid_tlv data (Z.to_nat i) L.
Proof.
  unfold tlv_body. intros Hbody.
  destruct (byte_at data i) as [b |] eqn:Hb; [| done].
  apply byte_at_Some in Hb as [Hi Hb].
  destruct (Z.eqb_spec b 3) as [-> | _]; [| done].
  destruct (byte_at data (i + 1)) as [L |] eqn:HL; [| done].
  apply byte_at_Some in HL as [_ HL].
  destruct (Z.leb_spec (i + 2 + L) (len data)) as [Hfit | _]; [| done].
  split; [done |]. exists L. repeat split; [done | | lia].
  by replace (Z.to_nat i + 1)%nat with (Z.to_nat (i + 1)) by lia.
Qed.

Lemma header_body_Some_inv (data : buffer) (i : Z) (r : buffer) :
  header_body data i = Some r →
  0 <= i ∧ ∃ b, data !! Z.to_nat i = Some b ∧ is_header b.
Proof.
  unfold header_body. intros Hbody.
  destruct (byte_at data i) as [b |] eqn:Hb; [| done].
  apply byte_at_Some in Hb as [Hi Hb].
  destruct (mb b && (1 <=? tnf_of b) && (tnf_of b <=? 6)) eqn:Htest; [| done].
  apply header_test_spec in Htest. eauto.
Qed.

(** X1: a buffer that [findNdefData] returns is one of the two patterns.  It
    is either the [L] bytes after the leftmost 0x03 TLV that fits and starts
    before the last two bytes, or - when no such TLV exists - the suffix of at
    least four bytes that starts at the leftmost header byte before the last
    three bytes. *)
Theorem findNdefData_sound (data r : buffer) :
  is_buffer data →
  findNdefData data = Some r →
  (∃ p L, valid_tlv data p L
          ∧ (p + 2 < length data)%nat
          ∧ (∀ q L', (q < p)%nat → ¬ valid_tlv data q L')
          ∧ r = take (Z.to_nat L) (drop (p + 2) data)
          ∧ len r = L)
  ∨ ((∀ q L, (q + 2 < length data)%nat → ¬ valid_tlv data q L)
     ∧ ∃ p b, data !! p = Some b
              ∧ is_header b
              ∧ (p + 3 < length data)%nat
              ∧ (∀ q b', (q < p)%nat → data !! q = Some b' → ¬ is_header b')
              ∧ r = drop p data
              ∧ (4 ≤ length r)%nat).
Proof.
  intros Hbuf. unfold findNdefData.
  destruct (for_range (len data - 2) (tlv_body data)) as [r1 |] eqn:Htlv.
  - intros [= ->]. left.
    apply for_range_Some_inv in Htlv as (i & Hi & Hbody & Hbefore).
    pose proof (tlv_body_Some_inv data i r Hbody) as (_ & L & Hvalid).
    exists (Z.to_nat i), L.
    pose proof (tlv_body_valid data (Z.to_nat i) L Hbuf Hvalid) as Hval.
    rewrite Z2Nat.id in Hval by lia. rewrite Hbody in Hval.
    injection Hval as Hr.
    assert (0 <= L < 256) as HL.
    { destruct Hvalid as (_ & Hlen & _).
      eapply Forall_lookup_1 in Hbuf; [| exact Hlen]. exact Hbuf. }
    split; [done |]. split; [unfold len in Hi; lia |].
    split; [| split; [done |]].
    + intros q L' Hq Hq'.
      pose proof (tlv_body_valid data q L' Hbuf Hq') as Hsome.
      rewrite Hbefore in Hsome by lia. done.
    + destruct Hvalid as (_ & _ & Hfit). rewrite Hr. unfold len in *.
      rewrite length_take, length_drop. lia.
  - intros Hhdr. right.
    split.
    { intros q L Hq Hvalid.
      pose proof (tlv_body_valid data q L Hbuf Hvalid) as Hsome.
      rewrite (for_range_None_inv _ _ Htlv) in Hsome; [done |].
      unfold len. lia. }
    apply for_range_Some_inv in Hhdr as (i & Hi & Hbody & Hbefore).
    pose proof (header_body_Some_inv data i r Hbody) as (_ & b & Hb & Hh).
    exists (Z.to_nat i), b.
    pose proof (header_body_header data (Z.to_nat i) b Hb Hh) as Hval.
    rewrite Z2Nat.id in Hval by lia. rewrite Hbody in Hval.
    injection Hval as Hr.
    split; [done |]. split; [done |]. split; [unfold len in Hi; lia |].
    split; [| split; [done |]].
    + intros q b' Hq Hb' Hh'.
      pose proof (header_body_header data q b' Hb' Hh') as Hsome.
      rewrite Hbefore in Hsome by lia. done.
    + rewrite Hr, length_drop. unfold len in Hi. lia.
Qed.

Lemma findNdefData_sound_witness :
  let data := [0x00; 0xD1; 0x01; 0x01; 0x54; 0x00; 0x03; 0x00] in
  let r := [0xD1; 0x01; 0x01; 0x54; 0x00; 0x03; 0x00] in
  (∃ p L, valid_tlv data p L
          ∧ (p + 2 < length data)%nat
          ∧ (∀ q L', (q < p)%nat → ¬ valid_tlv data q L')
          ∧ r = take (Z.to_nat L) (drop (p + 2) data)
          ∧ len r = L)
  ∨ ((∀ q L, (q + 2 < length data)%nat → ¬ valid_tlv data q L)
     ∧ ∃ p b, data !! p = Some b
              ∧ is_header b
              ∧ (p + 3 < length data)%nat
              ∧ (∀ q b', (q < p)%nat → data !! q = Some b' → ¬ is_header b')
              ∧ r = drop p data
              ∧ (4 ≤ length r)%nat).
Proof.
  intros data r. apply (findNdefData_sound data r).
  - subst data. repeat constructor; lia.
  - reflexivity.
Defined.

(** X2: [findNdefData] returns null exactly when no 0x03 TLV that fits
    starts before the last two bytes and no header byte stands before the
    last three bytes. *)
Theorem findNdefData_null_iff (data : buffer) :
  is_buffer data →
  findNdefData data = None
  ↔ (∀ q L, (q + 2 < length data)%nat → ¬ valid_tlv data q L)
    ∧ (∀ q b, (q + 3 < length data)%nat → data !! q = Some b → ¬ is_header b).
Proof.
  intros Hbuf. unfold findNdefData. split.
  - destruct (for_range (len data - 2) (tlv_body data)) eqn:Htlv; [done |].
    intros Hhdr. split.
    + intros q L Hq Hvalid.
      pose proof (tlv_body_valid data q L Hbuf Hvalid) as Hsome.
      rewrite (for_range_None_inv _ _ Htlv) in Hsome; [done |].
      unfold len. lia.
    + intros q b Hq Hb Hh.
      pose proof (header_body_header data q b Hb Hh) as Hsome.
      rewrite (for_range_None_inv _ _ Hhdr) in Hsome; [done |].
      unfold len. lia.
  - intros [Htlv Hhdr].
    rewrite for_range_None.
    + apply for_range_None. intros q Hq. apply header_body_other.
      intros b. apply Hhdr. unfold len in Hq. lia.
    + intros q Hq. apply tlv_body_invalid. intros L. apply Htlv.
      unfold len in Hq. lia.
Qed.

Lemma findNdefData_null_iff_witness :
  let data := [0x00; 0xD1; 0x03; 0x00] in
  findNdefData data = None
  ↔ (∀ q L, (q + 2 < length data)%nat → ¬ valid_tlv data q L)
    ∧ (∀ q b, (q + 3 < length data)%nat → data !! q = Some b → ¬ is_header b).
Proof.
  intros data. apply (findNdefData_null_iff data).
  subst data. repeat constructor; lia.
Defined.

(** ** The replay on any keyboard *)

Lemma await_all_app (kb : Keyboard) (cs1 cs2 done_ : list KbCall) :
  await_all kb (cs1 ++ cs2) done_
  = match await_all kb cs1 done_ with
    | (done', None) => await_all kb cs2 done'
    | (done', Some e) => (done', Some e)
    end.
Proof.
  revert done_. induction cs1 as [| c cs1 IH]; intros done_; simpl; [done |].
  destruct (kb done_ c); [done | apply IH].
Qed.

(** What [await_all] returns: the calls made form a prefix of the calls
    asked for, each of them was accepted, and either all were made or the
    next one was rejected. *)
Lemma await_all_spec (kb : Keyboard) (cs done_ : list KbCall) :
  ∃ made,
    fst (await_all kb cs done_) = done_ ++ made
    ∧ (∀ m1 c m2, made = m1 ++ c :: m2 → kb (done_ ++ m1) c = None)
    ∧ match snd (await_all kb cs done_) with
      | None => made = cs
      | Some e => ∃ c rest, cs = made ++ c :: rest ∧ kb (done_ ++ made) c = Some e
      end.
Proof.
  revert done_. induction cs as [| c cs IH]; intros done_; simpl.
  - exists []. rewrite app_nil_r. split; [done |]. split; [| done].
    intros m1 c m2 Hm. by destruct m1.
  - destruct (kb done_ c) as [e |] eqn:Hc.
    + exists []. simpl. rewrite app_nil_r. split; [done |]. split.
      * intros m1 c' m2 Hm. by destruct m1.
      * exists c, cs. by rewrite ?app_nil_r.
    + destruct (IH (done_ ++ [c])) as (made & Hfst & Hok & Hend).
      exists (c :: made). split; [by rewrite Hfst, <- app_assoc |]. split.
      * intros m1 c' m2 Hm. destruct m1 as [| c0 m1]; simpl in Hm.
        -- injection Hm as <- _. by rewrite app_nil_r.
        -- injection Hm as <- Hm.
           specialize (Hok m1 c' m2 Hm). by rewrite <- app_assoc in Hok.
      * destruct (snd (await_all kb cs (done_ ++ [c]))) as [e |].
        -- destruct Hend as (c' & rest & -> & Hrej).
           exists c', rest. split; [done |]. by rewrite <- app_assoc in Hrej.
        -- by rewrite Hend.
Qed.

Lemma follows_ret kb : follows kb (mret tt) [].
Proof. intros tr. exists []. rewrite app_nil_r. by repeat split. Qed.

Lemma follows_yield kb : follows kb (emit Yield) [].
Proof.
  intros tr. exists [Yield]. split; [by repeat constructor |].
  split; [| done]. rewrite kb_calls_app. simpl. by rewrite app_nil_r.
Qed.

Lemma follows_await kb c : follows kb (await_kb kb c) [c].
Proof.
  intros tr. unfold await_kb. simpl. destruct (kb (kb_calls tr) c) as [e |].
  - exists []. rewrite app_nil_r. by repeat split.
  - exists [Kb c]. split; [by repeat constructor |].
    split; [| done]. by rewrite kb_calls_app.
Qed.

Lemma follows_bind kb (m k : M unit) (cs1 cs2 : list KbCall) :
  follows kb m cs1 → follows kb k cs2 → follows kb (m ;; k) (cs1 ++ cs2).
Proof.
  intros Hm Hk tr. destruct (Hm tr) as (b1 & Hs1 & Hc1 & Hr1).
  rewrite await_all_app. unfold mbind, M_bind, bind. rewrite Hr1.
  destruct (await_all kb cs1 (kb_calls tr)) as [d1 [e |]]; simpl in *.
  - exists b1. by repeat split.
  - destruct (Hk (tr ++ b1)) as (b2 & Hs2 & Hc2 & Hr2).
    rewrite Hc1 in Hc2, Hr2.
    exists (b1 ++ b2). split; [by apply Forall_app |].
    rewrite app_assoc. by split.
Qed.

Lemma follows_type_char kb c : follows kb (type_char kb c) (calls_of_char c).
Proof.
  unfold type_char, calls_of_char. destruct (Ascii.eqb c "/").
  - apply (follows_bind kb _ _ [PressKey Tab] [ReleaseKey Tab]);
      apply follows_await.
  - apply follows_await.
Qed.

Lemma follows_type_chunk_from kb (before chunk : list ascii) :
  follows kb
    (for_each
       (fun j => match (before ++ chunk) !! Z.to_nat j with
                 | Some char => type_char kb char
                 | None => mret tt
                 end)
       (seqZ (len before) (len chunk)))
    (flat_map calls_of_char chunk).
Proof.
  revert before. induction chunk as [| c chunk IH]; intros before.
  - apply follows_ret.
  - unfold len at 2. rewrite seqZ_cons by (simpl; lia). simpl for_each.
    change (flat_map calls_of_char (c :: chunk))
      with (calls_of_char c ++ flat_map calls_of_char chunk).
    apply follows_bind.
    + unfold len. rewrite Nat2Z.id, list_lookup_middle by done.
      apply follows_type_char.
    + replace (Z.succ (len before)) with (len (before ++ [c]))
        by (unfold len; rewrite length_app; simpl; lia).
      replace (Z.pred (Z.of_nat (S (length chunk)))) with (len chunk)
        by (unfold len; lia).
      replace (before ++ c :: chunk) with ((before ++ [c]) ++ chunk)
        by (by rewrite <- app_assoc).
      apply (IH (before ++ [c])).
Qed.

Lemma follows_type_chunk kb chunk :
  follows kb (type_chunk kb chunk) (flat_map calls_of_char chunk).
Proof. apply (follows_type_chunk_from kb [] chunk). Qed.

Lemma follows_chunk_loop kb text fuel (n : nat) :
  (length text - n < fuel)%nat →
  follows kb (chunk_loop fuel kb text (Z.of_nat n))
    (flat_map calls_of_char (drop n text)).
Proof.
  revert n. induction fuel as [| fuel IH]; intros n Hfuel; [lia |].
  simpl. destruct (Z.ltb_spec (Z.of_nat n) (len text)) as [Hlt | Hge].
  - unfold len in Hlt. rewrite slice_chunk by lia.
    rewrite <- (take_drop (Z.to_nat chunkSize) (drop n text)) at 2.
    rewrite flat_map_app, drop_drop.
    apply follows_bind; [apply follows_type_chunk |].
    replace (flat_map calls_of_char (drop (n + Z.to_nat chunkSize) text))
      with ([] ++ flat_map calls_of_char (drop (n + Z.to_nat chunkSize) text))
      by done.
    apply follows_bind; [apply follows_yield |].
    replace (Z.of_nat n + chunkSize) with (Z.of_nat (n + Z.to_nat chunkSize))
      by (unfold chunkSize; lia).
    apply IH. unfold chunkSize. lia.
  - rewrite drop_ge by (unfold len in Hge; lia). apply follows_ret.
Qed.

Lemma follows_typeText_keys kb text pressEnter :
  follows kb (typeText_keys kb text pressEnter) (planned_calls text pressEnter).
Proof.
  unfold typeText_keys, planned_calls.
  apply (follows_bind kb _ _ [PressKey Escape]); [apply follows_await |].
  apply (follows_bind kb _ _ [ReleaseKey Escape]); [apply follows_await |].
  apply follows_bind.
  - apply (follows_chunk_loop kb text (S (length text)) 0). lia.
  - destruct pressEnter; [| apply follows_ret].
    apply (follows_bind kb _ _ [PressKey Enter] [ReleaseKey Enter]);
      apply follows_await.
Qed.

Lemma typeText_try_keys kb text pressEnter tr :
  typeText_try kb text pressEnter tr
  = (typeText_keys kb text pressEnter ;; emit Resolve) tr.
Proof.
  unfold typeText_try, typeText_keys, mbind, M_bind, bind.
  destruct (await_kb kb (PressKey Escape) tr) as [[[] | e |] tr1]; [| done | done].
  destruct (await_kb kb (ReleaseKey Escape) tr1) as [[[] | e |] tr2]; [| done | done].
  destruct (chunk_loop (S (length text)) kb text 0 tr2) as [[[] | e |] tr3];
    [| done | done].
  destruct pressEnter; [| done].
  destruct (await_kb kb (PressKey Enter) tr3) as [[[] | e |] tr4]; [| done | done].
  by destruct (await_kb kb (ReleaseKey Enter) tr4) as [[[] | e |] tr5].
Qed.

(** X3: on any keyboard, the replay of src/index.js makes the planned calls
    (Escape, the characters, Enter if asked) in order, each one only after
    all the earlier ones were accepted, and stops at the first call the
    keyboard rejects.  Besides these calls and yields it does only this: when
    all calls were accepted it calls [resolve] once, last; when a call was
    rejected it logs that call's error, then calls [resolve] once, last. *)
Theorem typeText_until_rejection (kb : Keyboard) (text : string)
    (pressEnter : bool) :
  ∃ body made,
    Forall silent body
    ∧ kb_calls body = made
    ∧ (∀ m1 c m2, made = m1 ++ c :: m2 → kb m1 c = None)
    ∧ ((made = planned_calls (list_ascii_of_string text) pressEnter
        ∧ typeText kb text pressEnter = (Return tt, body ++ [Resolve]))
       ∨ (∃ e c rest,
            planned_calls (list_ascii_of_string text) pressEnter
            = made ++ c :: rest
            ∧ kb made c = Some e
            ∧ typeText kb text pressEnter
              = (Return tt, body ++ [LogTypingError e; Resolve]))).
Proof.
  destruct (follows_typeText_keys kb (list_ascii_of_string text) pressEnter [])
    as (body & Hsilent & Hcalls & Hrun).
  remember (planned_calls (list_ascii_of_string text) pressEnter) as plan
    eqn:Hplan_def.
  destruct (await_all_spec kb plan []) as (made & Hfst & Hok & Hend).
  simpl in Hcalls, Hrun, Hfst, Hok, Hend.
  exists body, made. split; [done |]. split; [congruence |]. split; [done |].
  assert (typeText kb text pressEnter
          = match snd (await_all kb plan []) with
            | None => (Return tt, body ++ [Resolve])
            | Some e => (Return tt, body ++ [LogTypingError e; Resolve])
            end) as Htype.
  { unfold typeText, typeText_callback, try_catch.
    rewrite typeText_try_keys. unfold mbind, M_bind, bind. rewrite Hrun.
    destruct (snd (await_all kb plan [])) as [e |]; [| done].
    unfold emit. by rewrite <- app_assoc. }
  rewrite Htype. destruct (snd (await_all kb plan [])) as [e |].
  - right. destruct Hend as (c & rest & Hplan & Hrej). by exists e, c, rest.
  - left. by split.
Qed.

(** ** How often the replays hand over to the event loop *)

Lemma yields_app tr1 tr2 : yields (tr1 ++ tr2) = (yields tr1 + yields tr2)%nat.
Proof. unfold yields. by rewrite filter_app, length_app. Qed.

Lemma yields_map_Kb cs : yields (map Kb cs) = 0%nat.
Proof.
  induction cs as [| c cs IH]; [done |]. unfold yields in *. simpl.
  by rewrite filter_cons_False.
Qed.

Lemma chunk_loop_quiet_yields (kb : Keyboard) text fuel (n : nat) tr :
  (∀ done_ c, kb done_ c = None) →
  (length text - n < fuel)%nat →
  ∃ tr', chunk_loop fuel kb text (Z.of_nat n) tr = (Return tt, tr')
         ∧ Z.of_nat (yields tr')
           = Z.of_nat (yields tr) + (Z.of_nat (length text - n) + 49) / 50.
Proof.
  intros Hquiet. revert n tr.
  induction fuel as [| fuel IH]; intros n tr Hfuel; [lia |].
  simpl. destruct (Z.ltb_spec (Z.of_nat n) (len text)) as [Hlt | Hge].
  - unfold len in Hlt.
    erewrite bind_Return
      by (rewrite slice_chunk by lia; by apply type_chunk_quiet).
    erewrite bind_Return by reflexivity.
    replace (Z.of_nat n + chunkSize) with (Z.of_nat (n + 50))
      by (unfold chunkSize; lia).
    destruct (IH (n + 50)%nat
                ((tr ++ map Kb (flat_map calls_of_char
                                  (take (Z.to_nat chunkSize) (drop n text))))
                 ++ [Yield])) as (tr' & Hrun & Hy); [lia |].
    exists tr'. split; [done |]. rewrite Hy, !yields_app, yields_map_Kb.
    change (yields [Yield]) with 1%nat.
    Z.div_mod_to_equations. lia.
  - exists tr. split; [done |]. unfold len in Hge.
    replace (length text - n)%nat with 0%nat by lia.
    change ((Z.of_nat 0 + 49) / 50) with 0. lia.
Qed.



Lemma type_closure_set_immediates (text : list ascii) (pressEnter : bool) fuel
    (n : nat) :
  (n ≤ length text)%nat →
  (length text - n < fuel)%nat →
  ∃ tr, Part000.type_closure fuel text pressEnter (Z.of_nat n) = Some tr
        ∧ Z.of_nat (set_immediates tr) + Z.of_nat n / 10 = len text / 10.
Proof.
  revert n. induction fuel as [| fuel IH]; intros n Hn Hfuel; [lia |].
  simpl. destruct (Z.ltb_spec (Z.of_nat n) (len text)) as [Hlt | Hge].
  - unfold len in Hlt. rewrite Nat2Z.id.
    destruct (lookup_lt_is_Some_2 text n) as [c Hc]; [lia |].
    rewrite Hc.
    replace (Z.of_nat n + 1) with (Z.of_nat (S n)) by lia.
    destruct (IH (S n)) as (tr & -> & Htr); [lia | lia |].
    destruct (Z.eqb_spec (Z.of_nat (S n) `mod` 10) 0) as [Hmod | Hmod];
      eexists; (split; [reflexivity |]); rewrite <- Htr.
    + change (set_immediates (_ :: Part000.SetImmediate :: tr))
        with (S (set_immediates tr)).
      Z.div_mod_to_equations. lia.
    + change (set_immediates (_ :: tr)) with (set_immediates tr).
      Z.div_mod_to_equations. lia.
  - eexists. split; [reflexivity |]. unfold len in *.
    replace n with (length text) by lia.
    assert (set_immediates (if pressEnter then [Part000.Robot (Part000.KeyTap Enter)] else [])
            = 0%nat) as -> by (by destruct pressEnter).
    lia.
Qed.


(** ** One pipeline at a time *)

(** X6: in every state src/index.js can reach, at most one continuation of a
    pipeline (the read, the replay or the reset timer) is pending, and while
    one is pending every card-detected event is dropped: it starts no read
    and suspends nothing. *)
Theorem one_pipeline_at_a_time (lib : NdefLib) (evs : list Event) (s : Session) :
  run lib init evs = Some s →
  (length (pending s) ≤ 1)%nat
  ∧ (pending s ≠ [] →
     ∀ u, accepts s u = false
          ∧ pending (on_card u s) = pending s
          ∧ reads (trace (on_card u s)) = reads (trace s)).
Proof.
  intros Hrun.
  pose proof (gate_inv_run lib evs init s gate_inv_init Hrun) as Hinv.
  unfold gate_inv in Hinv.
  destruct (pending s) as [| c [| c1 rest]] eqn:Hpend; [| | done].
  - split; [simpl; lia | done].
  - split; [simpl; lia |]. intros _ u.
    assert (accepts s u = false) as Hacc by (apply accepts_false; by left).
    split; [done |]. rewrite on_card_ignored by done. simpl.
    split; [done |]. rewrite reads_app. unfold reads at 2. simpl. lia.
Qed.

Lemma one_pipeline_at_a_time_witness :
  let s := mkSession (Some "A") true [ResetTimer]
             [ConsoleLog "Card detected: A"; ConsoleLog "Reading tag...";
              ReaderRead 4 256; NdefDecodeMessage [0xD1];
              NdefDecodePayload [0x02; 0x65; 0x6E; 0x68; 0x69];
              ConsoleLog ("Text found: " +:+ dquote +:+ "hi" +:+ dquote);
              ConsoleLog "Typing text..."; TypeText "hi" true;
              SetTimeout 1000] in
  (length (pending s) ≤ 1)%nat
  ∧ (pending s ≠ [] →
     ∀ u, accepts s u = false
          ∧ pending (on_card u s) = pending s
          ∧ reads (trace (on_card u s)) = reads (trace s)).
Proof.
  intros s.
  apply (one_pipeline_at_a_time hi_lib
           [Card "A"; ReadSettled 0 (inr hi_dump); TypeTextSettled 0 (inr tt)] s).
  reflexivity.
Defined.

(** ** Reads and replays *)

Lemma replays_app (tr1 tr2 : list Obs) :
  replays (tr1 ++ tr2) = (replays tr1 + replays tr2)%nat.
Proof. unfold replays. by rewrite filter_app, length_app. Qed.

Lemma awaiting_reads_app (p1 p2 : list Continuation) :
  awaiting_reads (p1 ++ p2) = (awaiting_reads p1 + awaiting_reads p2)%nat.
Proof. unfold awaiting_reads. by rewrite filter_app, length_app. Qed.

Lemma awaiting_reads_delete (p : list Continuation) (k : nat) (c : Continuation) :
  p !! k = Some c →
  awaiting_reads p
  = (awaiting_reads (delete k p) + if bool_decide (c = AwaitRead) then 1 else 0)%nat.
Proof.
  revert k. induction p as [| c0 p IH]; intros k Hk; [done |].
  destruct k as [| k]; simpl in Hk.
  - injection Hk as ->. unfold awaiting_reads. simpl.
    case_bool_decide.
    + rewrite filter_cons_True by done. simpl. lia.
    + rewrite filter_cons_False by done. lia.
  - specialize (IH k Hk). unfold awaiting_reads in *. simpl.
    destruct (decide (c0 = AwaitRead)).
    + rewrite !filter_cons_True by done. simpl. lia.
    + by rewrite !filter_cons_False by done.
Qed.

Lemma reads_cons (o : Obs) (tr : list Obs) :
  reads (o :: tr) = ((if is_read o then 1 else 0) + reads tr)%nat.
Proof.
  unfold reads. destruct (is_read o) eqn:Ho.
  - by rewrite filter_cons_True.
  - rewrite filter_cons_False; [done |]. by rewrite Ho.
Qed.

Lemma replays_cons (o : Obs) (tr : list Obs) :
  replays (o :: tr) = ((if is_replay o then 1 else 0) + replays tr)%nat.
Proof.
  unfold replays. destruct (is_replay o) eqn:Ho.
  - by rewrite filter_cons_True.
  - rewrite filter_cons_False; [done |]. by rewrite Ho.
Qed.

Lemma awaiting_reads_cons (c : Continuation) (p : list Continuation) :
  awaiting_reads (c :: p)
  = ((if bool_decide (c = AwaitRead) then 1 else 0) + awaiting_reads p)%nat.
Proof.
  unfold awaiting_reads. case_bool_decide.
  - by rewrite filter_cons_True.
  - by rewrite filter_cons_False.
Qed.

Lemma reads_nil : reads [] = 0%nat.
Proof. reflexivity. Qed.

Lemma replays_nil : replays [] = 0%nat.
Proof. reflexivity. Qed.

Lemma awaiting_reads_nil : awaiting_reads [] = 0%nat.
Proof. reflexivity. Qed.

Create Rewrite HintDb counts.

#[local] Hint Rewrite reads_app replays_app awaiting_reads_app
  reads_cons replays_cons awaiting_reads_cons
  reads_nil replays_nil awaiting_reads_nil : counts.

(** Unfold the handlers' state updates and count the observations they add. *)
Ltac count_obs :=
  unfold catch_block, after_typeText, timer_callback, on_card_off, suspend,
    set_pending, set_processingCard, set_lastProcessedCard, log;
  simpl; autorewrite with counts; simpl; try lia.

(** What the continuation after the read adds to the trace: no read, and at
    most one replay; with a replay it suspends at [typeText], never at a
    read. *)
Lemma after_read_counts (lib : NdefLib) (data : buffer) (s : Session) :
  reads (trace (after_read lib data s)) = reads (trace s)
  ∧ (replays (trace (after_read lib data s)) ≤ replays (trace s) + 1)%nat
  ∧ awaiting_reads (pending (after_read lib data s)) = awaiting_reads (pending s).
Proof.
  unfold after_read.
  destruct (findNdefData data) as [ndefData |]; [| count_obs].
  destruct (decodeMessage lib ndefData) as [err | records]; [count_obs |].
  destruct (textRecords records) as [| r0 rest]; [count_obs |].
  destruct (decodePayload lib (payload r0)) as [err | text]; count_obs.
Qed.

Lemma step_counts (lib : NdefLib) (s s' : Session) (e : Event) :
  step lib s e = Some s' →
  (replays (trace s) + awaiting_reads (pending s) ≤ reads (trace s))%nat →
  (replays (trace s') + awaiting_reads (pending s') ≤ reads (trace s'))%nat
  ∧ (reads (trace s') ≤ reads (trace s) + if is_card e then 1 else 0)%nat.
Proof.
  intros Hstep Hinv. destruct e as [u | u | k r | k r | k]; simpl in Hstep.
  - injection Hstep as <-. destruct (accepts s u) eqn:Hacc.
    + rewrite on_card_accepted by done. count_obs.
    + rewrite on_card_ignored by done. count_obs.
  - injection Hstep as <-. unfold on_card_off. simpl.
    case_bool_decide; count_obs.
  - destruct (resume AwaitRead k s) as [s1 |] eqn:Hres; [| done].
    apply resume_Some in Hres as [Hk ->]. injection Hstep as <-.
    pose proof (awaiting_reads_delete _ _ _ Hk) as Hdel.
    rewrite bool_decide_eq_true_2 in Hdel by done.
    destruct r as [err | data]; [count_obs |].
    destruct (after_read_counts lib data
                (set_pending (delete k (pending s)) s)) as (Hr & Hp & Ha).
    simpl in Hr, Hp, Ha. simpl. lia.
  - destruct (resume AwaitTypeText k s) as [s1 |] eqn:Hres; [| done].
    apply resume_Some in Hres as [Hk ->]. injection Hstep as <-.
    pose proof (awaiting_reads_delete _ _ _ Hk) as Hdel.
    rewrite bool_decide_eq_false_2 in Hdel by done.
    destruct r as [err | []]; count_obs.
  - destruct (resume ResetTimer k s) as [s1 |] eqn:Hres; [| done].
    apply resume_Some in Hres as [Hk ->]. injection Hstep as <-.
    pose proof (awaiting_reads_delete _ _ _ Hk) as Hdel.
    rewrite bool_decide_eq_false_2 in Hdel by done.
    count_obs.
Qed.

Lemma run_counts (lib : NdefLib) (evs : list Event) (s s' : Session) :
  run lib s evs = Some s' →
  (replays (trace s) + awaiting_reads (pending s) ≤ reads (trace s))%nat →
  (replays (trace s') + awaiting_reads (pending s') ≤ reads (trace s'))%nat
  ∧ (reads (trace s') ≤ reads (trace s) + cards evs)%nat.
Proof.
  revert s. induction evs as [| e evs IH]; intros s Hrun Hinv.
  - injection Hrun as <-. unfold cards. simpl. lia.
  - simpl in Hrun. destruct (step lib s e) as [s1 |] eqn:Hstep; [| done].
    destruct (step_counts lib s s1 e Hstep Hinv) as [Hinv1 Hreads1].
    destruct (IH s1 Hrun Hinv1) as [Hinv' Hreads'].
    split; [done |].
    assert (cards (e :: evs) = ((if is_card e then 1 else 0) + cards evs)%nat)
      as ->.
    { unfold cards. destruct e; simpl;
        rewrite ?filter_cons_True, ?filter_cons_False by done; done. }
    lia.
Qed.

(** X7: along every run of src/index.js, every replay belongs to a read of
    its own that has completed, and every read to a card-detected event of
    its own: the number of [typeText] calls plus the number of reads still
    awaited never exceeds the number of reads started, which never exceeds
    the number of card-detected events. *)
Theorem replays_le_reads_le_cards (lib : NdefLib) (evs : list Event)
    (s : Session) :
  run lib init evs = Some s →
  (replays (trace s) + awaiting_reads (pending s) ≤ reads (trace s))%nat
  ∧ (reads (trace s) ≤ cards evs)%nat.
Proof.
  intros Hrun.
  destruct (run_counts lib evs init s Hrun) as [Hinv Hreads].
  - change (0 + 0 ≤ 0)%nat. lia.
  - split; [done |]. change (reads (trace init)) with 0%nat in Hreads. lia.
Qed.

Lemma replays_le_reads_le_cards_witness :
  let s := on_card "A" (on_card "A" init) in
  (replays (trace s) + awaiting_reads (pending s) ≤ reads (trace s))%nat
  ∧ (reads (trace s) ≤ cards [Card "A"; Card "A"])%nat.
Proof.
  intros s. apply (replays_le_reads_le_cards hi_lib [Card "A"; Card "A"] s).
  reflexivity.
Defined.

(** ** Which text is replayed *)

Lemma textRecords_first (pre post : list NdefRecord) (r0 : NdefRecord) :
  no_text pre → type r0 = "T" →
  textRecords (pre ++ r0 :: post) = r0 :: textRecords post.
Proof.
  intros Hpre Hr0. unfold textRecords. rewrite filter_app.
  rewrite filter_cons_True by done.
  assert (filter (fun record => type record = "T") pre = []) as ->; [| done].
  induction Hpre as [| r pre Hr _ IH]; [done |].
  by rewrite filter_cons_False.
Qed.

Lemma textRecords_cons_inv (records rest : list NdefRecord) (r0 : NdefRecord) :
  textRecords records = r0 :: rest →
  ∃ pre post, records = pre ++ r0 :: post ∧ no_text pre ∧ type r0 = "T".
Proof.
  unfold textRecords.
  induction records as [| r records IH]; intros Hsel; [done |].
  destruct (decide (type r = "T")) as [Hr | Hr].
  - rewrite filter_cons_True in Hsel by done. injection Hsel as -> _.
    exists [], records. split; [done |]. split; [constructor | done].
  - rewrite filter_cons_False in Hsel by done.
    destruct (IH Hsel) as (pre & post & -> & Hpre & Hr0).
    exists (r :: pre), post. split; [done |]. split; [by constructor | done].
Qed.

(** X8: the handler of src/index.js replays exactly when the scanner finds a
    message, the library decodes it, some record has type T and the library
    decodes the payload of the first such record.  It then calls [typeText]
    once, with the text of that first record - records after it, of type T or
    not, play no part - and with pressEnter set, and suspends at the replay
    with the processing flag as it was.  In every other case it calls
    [typeText] not at all. *)
Theorem replay_of_first_text_record (lib : NdefLib) (data : buffer) (s : Session) :
  (∀ ndefData pre first post text,
     findNdefData data = Some ndefData →
     decodeMessage lib ndefData = inr (pre ++ first :: post) →
     no_text pre →
     type first = "T" →
     decodePayload lib (payload first) = inr text →
     trace (after_read lib data s)
     = trace s ++ [NdefDecodeMessage ndefData;
                   NdefDecodePayload (payload first);
                   ConsoleLog ("Text found: " +:+ dquote +:+ text +:+ dquote);
                   ConsoleLog "Typing text...";
                   TypeText text true]
     ∧ pending (after_read lib data s) = pending s ++ [AwaitTypeText]
     ∧ processingCard (after_read lib data s) = processingCard s)
  ∧ (replays (trace (after_read lib data s)) ≠ replays (trace s) →
     ∃ ndefData pre first post text,
       findNdefData data = Some ndefData
       ∧ decodeMessage lib ndefData = inr (pre ++ first :: post)
       ∧ no_text pre
       ∧ type first = "T"
       ∧ decodePayload lib (payload first) = inr text).
Proof.
  split.
  - intros ndefData pre first post text Hfind Hdec Hpre Hfirst Hpay.
    unfold after_read.
    rewrite Hfind, Hdec, (textRecords_first pre post first Hpre Hfirst), Hpay.
    unfold suspend, set_pending, log. simpl. by rewrite <- !app_assoc.
  - unfold after_read.
    destruct (findNdefData data) as [ndefData |]; [| intros H; exfalso; revert H; count_obs].
    destruct (decodeMessage lib ndefData) as [err | records] eqn:Hdec;
      [intros H; exfalso; revert H; count_obs |].
    destruct (textRecords records) as [| r0 rest] eqn:Hsel;
      [intros H; exfalso; revert H; count_obs |].
    destruct (decodePayload lib (payload r0)) as [err | text] eqn:Hpay;
      [intros H; exfalso; revert H; count_obs |].
    intros _.
    destruct (textRecords_cons_inv records rest r0 Hsel)
      as (pre & post & -> & Hpre & Hr0).
    by exists ndefData, pre, r0, post, text.
Qed.

Lemma replay_of_first_text_record_witness :
  let first := mkRecord 2 "T" [] [0x02; 0x65; 0x6E; 0x68; 0x69] in
  let lib := lib_const [mkRecord 1 "U" [] [0x01]; first;
                        mkRecord 1 "T" [] [0x02; 0x65; 0x6E; 0x79; 0x6F]] "hi" in
  trace (after_read lib hi_dump init)
  = [NdefDecodeMessage [0xD1];
     NdefDecodePayload [0x02; 0x65; 0x6E; 0x68; 0x69];
     ConsoleLog ("Text found: " +:+ dquote +:+ "hi" +:+ dquote);
     ConsoleLog "Typing text...";
     TypeText "hi" true]
  ∧ pending (after_read lib hi_dump init) = [AwaitTypeText]
  ∧ processingCard (after_read lib hi_dump init) = false.
Proof.
  intros first lib.
  apply (proj1 (replay_of_first_text_record lib hi_dump init)
           [0xD1] [mkRecord 1 "U" [] [0x01]] first
           [mkRecord 1 "T" [] [0x02; 0x65; 0x6E; 0x79; 0x6F]] "hi").
  - reflexivity.
  - reflexivity.
  - repeat constructor. discriminate.
  - reflexivity.
  - reflexivity.
Defined.

(** ** The robotjs variant: every detection is read *)

Lemma after_read000_counts (lib : NdefLib) (data : buffer) (s : Part000.Session) :
  reads (Part000.trace (Part000.after_read lib data s)) = reads (Part000.trace s)
  ∧ (replays (Part000.trace (Part000.after_read lib data s))
     ≤ replays (Part000.trace s) + 1)%nat
  ∧ Part000.pending (Part000.after_read lib data s) = Part000.pending s.
Proof.
  unfold Part000.after_read, Part000.catch_block, Part000.log.
  destruct (findNdefData data) as [ndefData |];
    [| simpl; autorewrite with counts; simpl; repeat split; lia].
  destruct (decodeMessage lib ndefData) as [err | records];
    [simpl; autorewrite with counts; simpl; repeat split; lia |].
  destruct (textRecords records) as [| r0 rest];
    [simpl; autorewrite with counts; simpl; repeat split; lia |].
  destruct (decodePayload lib (payload r0)) as [err | text];
    simpl; autorewrite with counts; simpl; repeat split; lia.
Qed.

Lemma run000_counts (lib : NdefLib) (evs : list Event) (s s' : Part000.Session) :
  Part000.run lib s evs = Some s' →
  (replays (Part000.trace s) + length (Part000.pending s)
   ≤ reads (Part000.trace s))%nat →
  (replays (Part000.trace s') + length (Part000.pending s')
   ≤ reads (Part000.trace s'))%nat
  ∧ reads (Part000.trace s') = (reads (Part000.trace s) + cards evs)%nat.
Proof.
  revert s. induction evs as [| e evs IH]; intros s Hrun Hinv.
  - injection Hrun as <-. unfold cards. simpl. lia.
  - simpl in Hrun.
    destruct (Part000.step lib s e) as [s1 |] eqn:Hstep; [| done].
    assert ((replays (Part000.trace s1) + length (Part000.pending s1)
             ≤ reads (Part000.trace s1))%nat
            ∧ reads (Part000.trace s1)
              = (reads (Part000.trace s) + if is_card e then 1 else 0)%nat)
      as [Hinv1 Hreads1].
    { destruct e as [u | u | k r | k r | k]; simpl in Hstep; try done.
      - injection Hstep as <-. unfold Part000.on_card, Part000.log. simpl.
        rewrite length_app. autorewrite with counts. simpl. lia.
      - injection Hstep as <-. simpl. lia.
      - destruct (Part000.pending s !! k) as [[] |] eqn:Hk; [| done].
        injection Hstep as <-.
        assert (length (Part000.pending s)
                = S (length (delete k (Part000.pending s)))) as Hlen.
        { pose proof (lookup_lt_Some _ _ _ Hk) as Hlt.
          rewrite length_delete by eauto. lia. }
        destruct r as [err | data].
        + unfold Part000.catch_block, Part000.log. simpl.
          autorewrite with counts. simpl. lia.
        + destruct (after_read000_counts lib data
                      (Part000.mkSession (delete k (Part000.pending s))
                         (Part000.trace s))) as (Hr & Hp & Ha).
          simpl in Hr, Hp, Ha. rewrite Ha. simpl. lia. }
    destruct (IH s1 Hrun Hinv1) as [Hinv' Hreads'].
    split; [done |].
    assert (cards (e :: evs) = ((if is_card e then 1 else 0) + cards evs)%nat)
      as ->.
    { unfold cards. destruct e; simpl;
        rewrite ?filter_cons_True, ?filter_cons_False by done; done. }
    lia.
Qed.

(** X11: in the robotjs variant every card-detected event starts a read -
    along every run the number of reads equals the number of card-detected
    events - and every replay belongs to a completed read of its own: the
    number of [typeText] calls plus the number of reads still awaited never
    exceeds the number of reads. *)
Theorem reads000_eq_cards (lib : NdefLib) (evs : list Event)
    (s : Part000.Session) :
  Part000.run lib Part000.init evs = Some s →
  reads (Part000.trace s) = cards evs
  ∧ (replays (Part000.trace s) + length (Part000.pending s)
     ≤ reads (Part000.trace s))%nat.
Proof.
  intros Hrun.
  destruct (run000_counts lib evs Part000.init s Hrun) as [Hinv Hreads].
  - simpl. change (0 + 0 ≤ 0)%nat. lia.
  - split; [| done]. change (reads (Part000.trace Part000.init)) with 0%nat in Hreads.
    lia.
Qed.

Lemma reads000_eq_cards_witness :
  let s := Part000.on_card "A" (Part000.on_card "A" Part000.init) in
  reads (Part000.trace s) = cards [Card "A"; CardOff "A"; Card "A"]
  ∧ (replays (Part000.trace s) + length (Part000.pending s)
     ≤ reads (Part000.trace s))%nat.
Proof.
  intros s.
  apply (reads000_eq_cards hi_lib [Card "A"; CardOff "A"; Card "A"] s).
  reflexivity.
Defined.

(** X12: the robotjs variant puts no bound on the reads in flight: after any
    list of card-detected events, with no read completed yet, as many reads
    are awaited as cards were detected. *)
Theorem reads000_unbounded (lib : NdefLib) (us : list uid) :
  ∃ s, Part000.run lib Part000.init (map Card us) = Some s
       ∧ length (Part000.pending s) = length us
       ∧ reads (Part000.trace s) = length us.
Proof.
  assert (∀ s0, ∃ s, Part000.run lib s0 (map Card us) = Some s
            ∧ length (Part000.pending s)
              = (length (Part000.pending s0) + length us)%nat
            ∧ reads (Part000.trace s)
              = (reads (Part000.trace s0) + length us)%nat) as Hgen.
  { induction us as [| u us IH]; intros s0.
    - exists s0. simpl. repeat split; lia.
    - destruct (IH (Part000.on_card u s0)) as (s & Hrun & Hpend & Hreads).
      exists s. split; [exact Hrun |].
      rewrite Hpend, Hreads. unfold Part000.on_card, Part000.log. simpl.
      rewrite length_app. autorewrite with counts. simpl. lia. }
  destruct (Hgen Part000.init) as (s & Hrun & Hpend & Hreads).
  exists s. split; [done |]. simpl in Hpend.
  change (reads (Part000.trace Part000.init)) with 0%nat in Hreads. lia.
Qed.

(** ** Runs in pieces, and the replays of a trace *)

Lemma run_app (lib : NdefLib) (s : Session) (evs1 evs2 : list Event) :
  run lib s (evs1 ++ evs2) = run lib s evs1 ≫= fun s1 => run lib s1 evs2.
Proof.
  revert s. induction evs1 as [| e evs1 IH]; intros s; simpl; [done |].
  destruct (step lib s e) as [s1 |]; simpl; [apply IH | done].
Qed.

Lemma run000_app (lib : NdefLib) (s : Part000.Session) (evs1 evs2 : list Event) :
  Part000.run lib s (evs1 ++ evs2)
  = Part000.run lib s evs1 ≫= fun s1 => Part000.run lib s1 evs2.
Proof.
  revert s. induction evs1 as [| e evs1 IH]; intros s; simpl; [done |].
  destruct (Part000.step lib s e) as [s1 |]; simpl; [apply IH | done].
Qed.

Lemma replay_calls_app (tr1 tr2 : list Obs) :
  replay_calls (tr1 ++ tr2) = replay_calls tr1 ++ replay_calls tr2.
Proof. apply filter_app. Qed.

Lemma replay_calls_cons (o : Obs) (tr : list Obs) :
  replay_calls (o :: tr) = (if is_replay o then [o] else []) ++ replay_calls tr.
Proof.
  unfold replay_calls. destruct (is_replay o) eqn:Ho.
  - by rewrite filter_cons_True.
  - rewrite filter_cons_False; [done |]. by rewrite Ho.
Qed.

Lemma replay_calls_nil : replay_calls [] = [].
Proof. reflexivity. Qed.

#[local] Hint Rewrite replay_calls_app replay_calls_cons replay_calls_nil
  : counts.

Lemma accepts_init (u : uid) : accepts init u = true.
Proof. reflexivity. Qed.

(** ** A read that decodes to a text, in both variants *)

Lemma after_read_decodes (lib : NdefLib) (data : buffer) (text : string)
    (s : Session) :
  decodes_to lib data text →
  ∃ obs,
    after_read lib data s
    = mkSession (lastProcessedCard s) (processingCard s)
        (pending s ++ [AwaitTypeText]) (trace s ++ obs)
    ∧ reads obs = 0%nat
    ∧ replay_calls obs = [TypeText text true].
Proof.
  intros (ndefData & pre & first & post & Hfind & Hdec & Hpre & Hfirst & Hpay).
  unfold after_read.
  rewrite Hfind, Hdec, (textRecords_first pre post first Hpre Hfirst), Hpay.
  unfold suspend, set_pending, log. simpl. rewrite <- !app_assoc. simpl.
  eexists. split; [reflexivity |].
  autorewrite with counts. simpl. by split.
Qed.

Lemma after_read000_decodes (lib : NdefLib) (data : buffer) (text : string)
    (s0 : Part000.Session) :
  decodes_to lib data text →
  ∃ obs,
    Part000.after_read lib data s0
    = Part000.mkSession (Part000.pending s0) (Part000.trace s0 ++ obs)
    ∧ reads obs = 0%nat
    ∧ replay_calls obs = [TypeText text true].
Proof.
  intros (ndefData & pre & first & post & Hfind & Hdec & Hpre & Hfirst & Hpay).
  unfold Part000.after_read.
  rewrite Hfind, Hdec, (textRecords_first pre post first Hpre Hfirst), Hpay.
  unfold Part000.log. simpl. rewrite <- !app_assoc. simpl.
  eexists. split; [reflexivity |].
  autorewrite with counts. simpl. by split.
Qed.

(** The robotjs variant: each of a list of detections starts a read. *)
Lemma cards000_run (lib : NdefLib) (us : list uid) (s0 : Part000.Session) :
  ∃ s1,
    (∀ rest, Part000.run lib s0 (map Card us ++ rest) = Part000.run lib s1 rest)
    ∧ Part000.pending s1 = Part000.pending s0 ++ replicate (length us) tt
    ∧ reads (Part000.trace s1) = (reads (Part000.trace s0) + length us)%nat
    ∧ replay_calls (Part000.trace s1) = replay_calls (Part000.trace s0).
Proof.
  revert s0. induction us as [| u us IH]; intros s0.
  - exists s0. simpl. rewrite app_nil_r. repeat split; try done; lia.
  - destruct (IH (Part000.on_card u s0)) as (s1 & Hrun & Hp & Hr & Hc).
    exists s1. split; [intros rest; simpl; apply Hrun |].
    rewrite Hp, Hr, Hc. unfold Part000.on_card, Part000.log. simpl.
    split; [by rewrite <- app_assoc |].
    autorewrite with counts. simpl. split; [lia | by rewrite ?app_nil_r].
Qed.

(** The robotjs variant: each of the awaited reads, once it returns a buffer
    that decodes to [text], ends in a replay of [text]. *)
Lemma reads000_settle (lib : NdefLib) (data : buffer) (text : string) (n : nat) :
  decodes_to lib data text →
  ∀ s1, Part000.pending s1 = replicate n tt →
    ∃ s2,
      Part000.run lib s1 (replicate n (ReadSettled 0 (inr data))) = Some s2
      ∧ Part000.pending s2 = []
      ∧ reads (Part000.trace s2) = reads (Part000.trace s1)
      ∧ replay_calls (Part000.trace s2)
        = replay_calls (Part000.trace s1) ++ replicate n (TypeText text true).
Proof.
  intros Hdec. induction n as [| n IH]; intros s1 Hp.
  - exists s1. simpl. by rewrite app_nil_r.
  - simpl. rewrite Hp. simpl.
    destruct (after_read000_decodes lib data text
                (Part000.mkSession (replicate n tt) (Part000.trace s1)) Hdec)
      as (obs & -> & Hr & Hc). simpl.
    destruct (IH (Part000.mkSession (replicate n tt) (Part000.trace s1 ++ obs)))
      as (s2 & Hrun & Hp2 & Hr2 & Hc2); [done |].
    exists s2. split; [done |]. split; [done |].
    rewrite Hr2, Hc2. simpl. rewrite reads_app, replay_calls_app, Hr, Hc.
    split; [lia | by rewrite <- app_assoc].
Qed.

(** src/index.js: detections that arrive while the flag is set change
    nothing but the log. *)
Lemma cards_dropped (lib : NdefLib) (us : list uid) (s : Session) :
  processingCard s = true →
  ∃ s1,
    (∀ rest, run lib s (map Card us ++ rest) = run lib s1 rest)
    ∧ lastProcessedCard s1 = lastProcessedCard s
    ∧ processingCard s1 = true
    ∧ pending s1 = pending s
    ∧ reads (trace s1) = reads (trace s)
    ∧ replay_calls (trace s1) = replay_calls (trace s).
Proof.
  revert s. induction us as [| u us IH]; intros s Hproc.
  - exists s. by repeat split.
  - assert (accepts s u = false) as Hacc by (apply accepts_false; by left).
    destruct (IH (on_card u s)) as (s1 & Hrun & Hl & Hf & Hp & Hr & Hc).
    { by rewrite on_card_ignored. }
    rewrite on_card_ignored in Hl, Hp, Hr, Hc by done. simpl in Hl, Hp, Hr, Hc.
    exists s1. split; [intros rest; simpl; apply Hrun |].
    split; [done |]. split; [done |]. split; [done |].
    rewrite Hr, Hc. autorewrite with counts. simpl.
    split; [lia | by rewrite ?app_nil_r].
Qed.

(** src/index.js: the first detection is read; the read, once it returns a
    buffer that decodes to [text], ends in a replay of [text], at which the
    handler is suspended. *)
Lemma first_card_replayed (lib : NdefLib) (data : buffer) (text : string)
    (u : uid) (us : list uid) :
  decodes_to lib data text →
  ∃ s,
    (∀ rest, run lib init (map Card (u :: us) ++ ReadSettled 0 (inr data) :: rest)
             = run lib s rest)
    ∧ lastProcessedCard s = Some u
    ∧ processingCard s = true
    ∧ pending s = [AwaitTypeText]
    ∧ reads (trace s) = 1%nat
    ∧ replay_calls (trace s) = [TypeText text true].
Proof.
  intros Hdec.
  destruct (cards_dropped lib us (on_card u init))
    as (s1 & Hrun & Hl & Hf & Hp & Hr & Hc).
  { by rewrite on_card_accepted by apply accepts_init. }
  rewrite on_card_accepted in Hl, Hp, Hr, Hc by apply accepts_init.
  simpl in Hl, Hp, Hr, Hc.
  destruct s1 as [last1 proc1 pend1 tr1]. simpl in *. subst last1 proc1 pend1.
  destruct (after_read_decodes lib data text
              (mkSession (Some u) true [] tr1) Hdec) as (obs & Hafter & Hro & Hco).
  eexists. split.
  { intros rest. rewrite Hrun. simpl. unfold resume. simpl.
    unfold set_pending. simpl. rewrite Hafter. reflexivity. }
  simpl. split; [done |]. split; [done |]. split; [done |].
  rewrite reads_app, replay_calls_app, Hr, Hc, Hro, Hco.
  by autorewrite with counts.
Qed.

(** ** The two variants at the card-detected interface, continued *)

(** C10: the two variants differ at the card-detected interface.  The
    robotjs variant, whose state holds neither a processing flag nor a stored
    identifier, starts a read for every card-detected event, and each read
    that returns a buffer the library decodes to a text ends in a replay of
    that text: however many cards are detected, as many texts are replayed,
    also for a card detected after an earlier replay was started.
    src/index.js starts a read only when the guard accepts the event, which
    it does not while the processing flag is set or for the stored
    identifier: of the detections that arrive before the first read returns
    only the first is read and replayed, a second read never returns because
    none was started, and detections that arrive while the replay is awaited
    are dropped. *)
Theorem variants_differ (lib : NdefLib) :
  (∀ s u, ∃ s', Part000.step lib s (Card u) = Some s'
                ∧ reads (Part000.trace s') = S (reads (Part000.trace s))
                ∧ Part000.pending s' = Part000.pending s ++ [tt])
  ∧ (∀ s u, ∃ s', step lib s (Card u) = Some s'
                  ∧ reads (trace s')
                    = (reads (trace s) + (if accepts s u then 1 else 0))%nat
                  ∧ (accepts s u = false ↔
                     processingCard s = true ∨ lastProcessedCard s = Some u))
  ∧ (∃ s0 s, Part000.run lib Part000.init [Card "A"; Card "A"] = Some s0
             ∧ run lib init [Card "A"; Card "A"] = Some s
             ∧ reads (Part000.trace s0) = 2%nat
             ∧ reads (trace s) = 1%nat)
  ∧ (∃ s0 s, Part000.run lib Part000.init [Card "A"; Card "B"] = Some s0
             ∧ run lib init [Card "A"; Card "B"] = Some s
             ∧ reads (Part000.trace s0) = 2%nat
             ∧ reads (trace s) = 1%nat)
  ∧ (∀ data text us,
       decodes_to lib data text →
       ∃ s0, Part000.run lib Part000.init
               (map Card us ++ replicate (length us) (ReadSettled 0 (inr data)))
             = Some s0
             ∧ reads (Part000.trace s0) = length us
             ∧ replay_calls (Part000.trace s0)
               = replicate (length us) (TypeText text true))
  ∧ (∀ data text u us,
       decodes_to lib data text →
       (∃ s, run lib init (map Card (u :: us) ++ [ReadSettled 0 (inr data)])
             = Some s
             ∧ reads (trace s) = 1%nat
             ∧ replay_calls (trace s) = [TypeText text true]
             ∧ pending s = [AwaitTypeText])
       ∧ run lib init
           (map Card (u :: us)
            ++ [ReadSettled 0 (inr data); ReadSettled 0 (inr data)])
         = None)
  ∧ (∀ data text u vs,
       decodes_to lib data text →
       (∃ s0, Part000.run lib Part000.init
                ([Card u; ReadSettled 0 (inr data)]
                 ++ map Card vs
                 ++ replicate (length vs) (ReadSettled 0 (inr data)))
              = Some s0
              ∧ reads (Part000.trace s0) = S (length vs)
              ∧ replay_calls (Part000.trace s0)
                = replicate (S (length vs)) (TypeText text true))
       ∧ (∃ s, run lib init ([Card u; ReadSettled 0 (inr data)] ++ map Card vs)
               = Some s
               ∧ reads (trace s) = 1%nat
               ∧ replay_calls (trace s) = [TypeText text true]
               ∧ pending s = [AwaitTypeText])).
Proof.
  split; [| split; [| split; [| split; [| split; [| split]]]]].
  - intros s u. eexists. split; [reflexivity |]. split; [| reflexivity].
    unfold Part000.on_card, Part000.log. simpl.
    autorewrite with counts. simpl. lia.
  - intros s u. eexists. split; [reflexivity |].
    split; [| apply accepts_false].
    destruct (accepts s u) eqn:Hacc.
    + rewrite on_card_accepted by done. simpl. by rewrite reads_app.
    + rewrite on_card_ignored by done. simpl.
      autorewrite with counts. simpl. lia.
  - do 2 eexists. repeat split.
  - do 2 eexists. repeat split.
  - intros data text us Hdec.
    destruct (cards000_run lib us Part000.init) as (s1 & Hrun & Hp & Hr & Hc).
    destruct (reads000_settle lib data text (length us) Hdec s1 Hp)
      as (s2 & Hrun2 & _ & Hr2 & Hc2).
    exists s2. rewrite Hrun. split; [done |].
    rewrite Hr2, Hc2, Hr, Hc. by split.
  - intros data text u us Hdec.
    destruct (first_card_replayed lib data text u us Hdec)
      as (s & Hrun & Hl & Hf & Hp & Hr & Hc).
    split.
    + exists s. by rewrite (Hrun []).
    + rewrite (Hrun [ReadSettled 0 (inr data)]). simpl.
      unfold resume. by rewrite Hp.
  - intros data text u vs Hdec. split.
    + destruct (cards000_run lib [u] Part000.init) as (s1 & Hrun & Hp & Hr & Hc).
      destruct (reads000_settle lib data text 1 Hdec s1 Hp)
        as (s2 & Hrun2 & Hp2 & Hr2 & Hc2).
      destruct (cards000_run lib vs s2) as (s3 & Hrun3 & Hp3 & Hr3 & Hc3).
      rewrite Hp2 in Hp3.
      destruct (reads000_settle lib data text (length vs) Hdec s3 Hp3)
        as (s4 & Hrun4 & _ & Hr4 & Hc4).
      exists s4. split.
      * change ([Card u; ReadSettled 0 (inr data)]
                ++ map Card vs ++ replicate (length vs) (ReadSettled 0 (inr data)))
          with (map Card [u]
                ++ (replicate 1 (ReadSettled 0 (inr data))
                    ++ (map Card vs
                        ++ replicate (length vs) (ReadSettled 0 (inr data))))).
        rewrite Hrun, run000_app, Hrun2. simpl. by rewrite Hrun3.
      * rewrite Hr4, Hc4, Hr3, Hc3, Hr2, Hc2, Hr, Hc. simpl. split; [lia | done].
    + destruct (first_card_replayed lib data text u [] Hdec)
        as (s & Hrun & Hl & Hf & Hp & Hr & Hc).
      destruct (cards_dropped lib vs s Hf) as (s1 & Hrun1 & _ & _ & Hp1 & Hr1 & Hc1).
      exists s1. split.
      * change ([Card u; ReadSettled 0 (inr data)] ++ map Card vs)
          with (map Card [u] ++ ReadSettled 0 (inr data) :: map Card vs).
        rewrite Hrun. rewrite <- (app_nil_r (map Card vs)). by rewrite Hrun1.
      * rewrite Hr1, Hc1, Hp1. by repeat split.
Qed.

Lemma hi_tag_decodes : decodes_to hi_tag_lib hi_tag "hi".
Proof.
  exists hi_message, [], hi_record, [].
  split; [reflexivity |]. split; [reflexivity |].
  split; [constructor |]. split; reflexivity.
Qed.

Lemma variants_differ_witness :
  (∃ s0, Part000.run hi_tag_lib Part000.init
           (map Card ["A"; "A"]
            ++ replicate 2 (ReadSettled 0 (inr hi_tag)))
         = Some s0
         ∧ reads (Part000.trace s0) = 2%nat
         ∧ replay_calls (Part000.trace s0) = [TypeText "hi" true; TypeText "hi" true])
  ∧ (∃ s, run hi_tag_lib init
            (map Card ["A"; "A"] ++ [ReadSettled 0 (inr hi_tag)])
          = Some s
          ∧ reads (trace s) = 1%nat
          ∧ replay_calls (trace s) = [TypeText "hi" true]
          ∧ pending s = [AwaitTypeText])
  ∧ run hi_tag_lib init
      (map Card ["A"; "A"]
       ++ [ReadSettled 0 (inr hi_tag); ReadSettled 0 (inr hi_tag)])
    = None.
Proof.
  pose proof (variants_differ hi_tag_lib)
    as (_ & _ & _ & _ & Hrobot & Hindex & _).
  split.
  - exact (Hrobot hi_tag "hi" ["A"; "A"] hi_tag_decodes).
  - exact (Hindex hi_tag "hi" "A" ["A"] hi_tag_decodes).
Defined.

(** ** The two variants when the read settles, and after *)

(** X9: when the read settles, both variants do the same to the outside
    world up to and including the call of [typeText]: for the same result of
    the read and the same library answers, the step adds the same log lines,
    library calls and [typeText] call to the trace of either variant.  Only
    src/index.js has steps after that call: when the awaited replay settles
    it arms the reset timer (or logs the error), and when the timer fires it
    logs that it is ready for the next card; in the robotjs variant no such
    step exists. *)
Theorem variants_same_observations (lib : NdefLib) :
  (∀ s s0 k k0 r s' s0',
     step lib s (ReadSettled k r) = Some s' →
     Part000.step lib s0 (ReadSettled k0 r) = Some s0' →
     ∃ obs, trace s' = trace s ++ obs
            ∧ Part000.trace s0' = Part000.trace s0 ++ obs)
  ∧ (∀ s k r s',
       step lib s (TypeTextSettled k r) = Some s' →
       trace s'
       = trace s ++ [match r with
                     | inl err => ConsoleError ("Error: " +:+ message err)
                     | inr _ => SetTimeout 1000
                     end])
  ∧ (∀ s k s',
       step lib s (TimerFired k) = Some s' →
       trace s' = trace s ++ [ConsoleLog "Ready for next card"])
  ∧ (∀ s0 k r, Part000.step lib s0 (TypeTextSettled k r) = None)
  ∧ (∀ s0 k, Part000.step lib s0 (TimerFired k) = None).
Proof.
  split; [| split; [| split; [| split]]].
  - intros s s0 k k0 r s' s0' Hstep Hstep0. simpl in Hstep, Hstep0.
    destruct (resume AwaitRead k s) as [s1 |] eqn:Hres; [| done].
    apply resume_Some in Hres as [_ ->]. injection Hstep as <-.
    destruct (Part000.pending s0 !! k0) as [[] |]; [| done].
    injection Hstep0 as <-.
    destruct r as [err | data]; [by eexists |].
    unfold after_read, Part000.after_read.
    destruct (findNdefData data) as [ndefData |]; [| by eexists].
    destruct (decodeMessage lib ndefData) as [err | records];
      [eexists; split; simpl; rewrite <- ?app_assoc; reflexivity |].
    destruct (textRecords records) as [| r0 rest];
      [eexists; split; simpl; rewrite <- ?app_assoc; reflexivity |].
    destruct (decodePayload lib (payload r0)) as [err | text];
      eexists; split; simpl; rewrite <- ?app_assoc; reflexivity.
  - intros s k r s' Hstep. simpl in Hstep.
    destruct (resume AwaitTypeText k s) as [s1 |] eqn:Hres; [| done].
    apply resume_Some in Hres as [_ ->]. injection Hstep as <-.
    by destruct r.
  - intros s k s' Hstep. simpl in Hstep.
    destruct (resume ResetTimer k s) as [s1 |] eqn:Hres; [| done].
    apply resume_Some in Hres as [_ ->]. by injection Hstep as <-.
  - done.
  - done.
Qed.

Lemma variants_same_observations_witness :
  ∃ obs,
    trace (after_read hi_tag_lib hi_tag
             (mkSession (Some "A") true [] [ReaderRead 4 256]))
    = [ReaderRead 4 256] ++ obs
    ∧ Part000.trace (Part000.after_read hi_tag_lib hi_tag
                       (Part000.mkSession [] [ReaderRead 4 256]))
      = [ReaderRead 4 256] ++ obs.
Proof.
  apply (proj1 (variants_same_observations hi_tag_lib)
           (mkSession (Some "A") true [AwaitRead] [ReaderRead 4 256])
           (Part000.mkSession [tt] [ReaderRead 4 256])
           0%nat 0%nat (inr hi_tag)); reflexivity.
Defined.

(** ** Trying a failed card again *)

(** A session with nothing pending stays so, with the flag clear, along
    events that start no pipeline. *)
Lemma idle_stays (lib : NdefLib) (mid : list Event) (s1 s2 : Session) :
  pending s1 = [] →
  processingCard s1 = false →
  pipelines_all lib s1 mid = 0%nat →
  run lib s1 mid = Some s2 →
  pending s2 = [] ∧ processingCard s2 = false.
Proof.
  revert s1. induction mid as [| e mid IH]; intros s1 Hpend Hproc Hnone Hrun.
  - injection Hrun as <-. by split.
  - unfold pipelines_all in *. simpl in Hnone, Hrun.
    apply Nat.eq_add_0 in Hnone as [Hhead Hrest].
    destruct e as [v | v | k r | k r | k]; simpl in Hrun, Hrest.
    + assert (accepts s1 v = false) as Hacc.
      { simpl in Hhead. by destruct (accepts s1 v). }
      apply (IH (on_card v s1)); [| | done | done];
        by rewrite on_card_ignored.
    + apply (IH (on_card_off v s1)); [| | done | done];
        unfold on_card_off; simpl; by case_bool_decide.
    + unfold resume in Hrun. by rewrite Hpend in Hrun.
    + unfold resume in Hrun. by rewrite Hpend in Hrun.
    + unfold resume in Hrun. by rewrite Hpend in Hrun.
Qed.

(** X10: in src/index.js a failed read releases the gate at once, with no
    reset timer.  From any reachable state that accepts the card [u], after
    the detection of [u] and the failure of its read nothing is pending and
    the flag is clear, while [u] stays stored; and after any further events
    that start no pipeline, the card-removed event for [u] leaves a state with
    nothing pending in which the next detection of [u] is accepted. *)
Theorem failed_card_retry_after_removal (lib : NdefLib) (evs : list Event)
    (s : Session) (u : uid) (err : JsError) :
  run lib init evs = Some s →
  accepts s u = true →
  ∃ s1,
    run lib s [Card u; ReadSettled 0 (inl err)] = Some s1
    ∧ pending s1 = []
    ∧ processingCard s1 = false
    ∧ lastProcessedCard s1 = Some u
    ∧ ∀ mid s',
        pipelines_all lib s1 mid = 0%nat →
        run lib s1 (mid ++ [CardOff u]) = Some s' →
        pending s' = [] ∧ accepts s' u = true.
Proof.
  intros Hrun Hacc.
  pose proof (gate_inv_run lib evs init s gate_inv_init Hrun) as Hinv.
  assert (processingCard s = false) as Hproc.
  { unfold accepts in Hacc. by apply negb_true_iff, orb_false_iff in Hacc as [? _]. }
  assert (pending s = []) as Hpend.
  { unfold gate_inv in Hinv.
    destruct (pending s) as [| c [| c1 rest]]; [done | congruence | done]. }
  eexists. split.
  { simpl. rewrite on_card_accepted by done. rewrite Hpend.
    unfold resume. simpl. reflexivity. }
  simpl. split; [done |]. split; [done |]. split; [done |].
  intros mid s' Hnone Hrun'.
  rewrite run_app in Hrun'.
  match type of Hrun' with
  | run lib ?s1 mid ≫= _ = _ =>
      destruct (run lib s1 mid) as [s2 |] eqn:Hmid; [| done];
      destruct (idle_stays lib mid s1 s2) as [Hp2 Hf2]; [done | done | done | done |]
  end.
  simpl in Hrun'. injection Hrun' as <-.
  split.
  - unfold on_card_off. simpl. by case_bool_decide.
  - unfold accepts.
    assert (processingCard (on_card_off u s2) = false) as ->.
    { unfold on_card_off. simpl. by case_bool_decide. }
    rewrite on_card_off_last. simpl.
    destruct (decide (lastProcessedCard s2 = Some u)) as [Hlast | Hlast].
    + rewrite (bool_decide_eq_true_2 _ Hlast).
      by rewrite bool_decide_eq_false_2.
    + rewrite (bool_decide_eq_false_2 _ Hlast).
      by rewrite bool_decide_eq_false_2.
Qed.

Lemma failed_card_retry_after_removal_witness :
  ∃ s1,
    run hi_tag_lib init [Card "A"; ReadSettled 0 (inl (mkError "read failed"))]
    = Some s1
    ∧ pending s1 = []
    ∧ processingCard s1 = false
    ∧ lastProcessedCard s1 = Some "A"
    ∧ ∀ mid s',
        pipelines_all hi_tag_lib s1 mid = 0%nat →
        run hi_tag_lib s1 (mid ++ [CardOff "A"]) = Some s' →
        pending s' = [] ∧ accepts s' "A" = true.
Proof.
  apply (failed_card_retry_after_removal hi_tag_lib [] init "A"
           (mkError "read failed")); reflexivity.
Defined.
